(** * Lampshade client core: dialer, send buffer, receive buffer and
    operation tracking

    A shallow embedding of [dialer.go], of [sendbuffer.go] (which also holds
    the receive buffer) and of [ops/ops.go].  Go's goroutines, channels, mutexes and timers are
    modelled by explicit state: a channel is the list of values it buffers
    (plus a sealed flag), a mutex is a boolean, a timer is a three-valued
    state, and an operation that cannot proceed in the current state is
    reported as blocked instead of returning. *)

From Stdlib Require Import ZArith QArith Qround Lia Bool.
From stdpp Require Import base list option strings gmap.

Local Open Scope Z_scope.

(** ** Machine integers *)

(** Go's [uint32]: arithmetic wraps modulo 2^32. *)
Definition uint32 (z : Z) : Z := z mod 2 ^ 32.

(** Go's [int] on a 64-bit platform: two's complement wrap-around. *)
Definition int64 (z : Z) : Z := (z + 2 ^ 63) mod 2 ^ 64 - 2 ^ 63.

(** Go's conversion [int16(x)]: the low 16 bits, read as a signed value. *)
Definition int16 (z : Z) : Z := (z + 2 ^ 15) mod 2 ^ 16 - 2 ^ 15.

(** ** The dialer ([dialer.go]) *)

Module Dialer.

(** Modelled from the spec: the constant [maxID] is declared elsewhere in
    the package; the specification fixes the largest stream id at
    2^24 - 1 (a three byte field). *)
Definition maxID : Z := 2 ^ 24 - 1.

(** An underlying physical connection, named by the order in which the
    connector produced it. *)
Definition conn := nat.

(** The steps of [startSession] that can fail. *)
Inductive step :=
| AESSecret | SendIV | RecvIV | ClientInitMsg | DecryptCipher | EncryptCipher.

Inductive error :=
| ConnectorError (code : nat)          (* whatever [doDial] returned *)
| Errorf (at_step : step) (cause : nat) (* [fmt.Errorf("Unable to ...: %v", err)] *).

(** What the outside world answers during one run of [startSession]:
    the connector's result and, for every later step, [None] when the
    step succeeds or the error it reports. The key material itself plays
    no role in the dialer's control flow and is left out. *)
Record handshake := {
  doDial : conn + nat;
  newAESSecret : option nat;
  newSendIV : option nat;
  newRecvIV : option nat;
  buildClientInitMsg : option nat;
  newDecryptCipher : option nat;
  newEncryptCipher : option nat
}.

(** A session corresponds one to one with a physical connection. *)
Record session := { s_conn : conn; s_windowSize : Z }.

(** The stream handed out by [getOrCreateStream]: the session it lives on
    and its id. *)
Record stream := { st_session : session; st_id : Z }.

Record dialer := {
  windowSize : Z;
  maxStreamPerConn : Z;      (* uint32 *)
  current : option session;
  id : Z;                    (* uint32 *)
  mx : bool                  (* [true] while the mutex is held *)
}.

Definition set_mx (b : bool) (d : dialer) : dialer :=
  {| windowSize := windowSize d; maxStreamPerConn := maxStreamPerConn d;
     current := current d; id := id d; mx := b |}.

Definition set_id (i : Z) (d : dialer) : dialer :=
  {| windowSize := windowSize d; maxStreamPerConn := maxStreamPerConn d;
     current := current d; id := i; mx := mx d |}.

Definition set_current (c : option session) (d : dialer) : dialer :=
  {| windowSize := windowSize d; maxStreamPerConn := maxStreamPerConn d;
     current := c; id := id d; mx := mx d |}.

(** [StreamDialer]: the dialer state behind the returned closure. *)
Definition StreamDialer (windowSize : Z) (maxStreamsPerConn : Z) : dialer :=
  let maxStreamsPerConn :=
    if (maxStreamsPerConn <=? 0) || (maxStreamsPerConn >? maxID)
    then maxID else maxStreamsPerConn in
  {| windowSize := windowSize; maxStreamPerConn := maxStreamsPerConn;
     current := None; id := 0; mx := false |}.

(** [startSession]. Only the connector's failure unlocks the mutex; the
    other failure returns leave the dialer as it is. *)
Definition startSession (d : dialer) (h : handshake)
  : (session + error) * dialer :=
  match doDial h with
  | inr err => (inr (ConnectorError err), set_mx false d)
  | inl conn =>
    match newAESSecret h with
    | Some err => (inr (Errorf AESSecret err), d)
    | None =>
    match newSendIV h with
    | Some err => (inr (Errorf SendIV err), d)
    | None =>
    match newRecvIV h with
    | Some err => (inr (Errorf RecvIV err), d)
    | None =>
    match buildClientInitMsg h with
    | Some err => (inr (Errorf ClientInitMsg err), d)
    | None =>
    match newDecryptCipher h with
    | Some err => (inr (Errorf DecryptCipher err), d)
    | None =>
    match newEncryptCipher h with
    | Some err => (inr (Errorf EncryptCipher err), d)
    | None =>
      let s := {| s_conn := conn; s_windowSize := windowSize d |} in
      (inl s, set_current (Some s) d)
    end end end end end end
  end.

(** The result of one call of [dial]. [started] records whether the call
    ran [startSession], that is, whether it asked the connector for a new
    physical connection. *)
Inductive dial_result :=
| Blocked                         (* [d.mx.Lock()] never acquires the mutex *)
| Returned (r : stream + error) (started : bool) (d' : dialer).

Definition dial (d : dialer) (h : handshake) : dial_result :=
  if mx d then Blocked else
  let d := set_mx true d in
  let current0 := current d in
  let '(idsExhausted, d) :=
    if id d >? maxStreamPerConn d then (true, set_id 0 d) else (false, d) in
  let finish (cur : session) (started : bool) (d : dialer) :=
    let i := id d in
    let d := set_id (uint32 (id d + 1)) d in
    let d := set_mx false d in
    Returned (inl {| st_session := cur; st_id := i |}) started d in
  match current0 with
  | Some cur =>
    if idsExhausted then
      match startSession d h with
      | (inr err, d) => Returned (inr err) true d
      | (inl cur, d) => finish cur true d
      end
    else finish cur false d
  | None =>
    match startSession d h with
    | (inr err, d) => Returned (inr err) true d
    | (inl cur, d) => finish cur true d
    end
  end.

(** [sessionClosed], the callback a session runs when it closes. [None]
    when the mutex is held and the callback has to wait. *)
Definition session_eqb (a b : session) : bool :=
  Nat.eqb (s_conn a) (s_conn b) && (s_windowSize a =? s_windowSize b).

Definition sessionClosed (d : dialer) (s : session) : option dialer :=
  if mx d then None else
  match current d with
  | Some c => if session_eqb c s then Some (set_current None d) else Some d
  | None => Some d
  end.

(** A run of successive [dial] calls, each with the answers the world
    gives it. A call that blocks leaves the dialer as it is. *)
Fixpoint dial_all (d : dialer) (hs : list handshake) : list dial_result :=
  match hs with
  | [] => []
  | h :: hs =>
    let r := dial d h in
    r :: dial_all (match r with Returned _ _ d' => d' | Blocked => d end) hs
  end.

(** A handshake in which everything succeeds on connection [c]. *)
Definition handshake_ok (c : conn) : handshake :=
  {| doDial := inl c; newAESSecret := None; newSendIV := None;
     newRecvIV := None; buildClientInitMsg := None;
     newDecryptCipher := None; newEncryptCipher := None |}.

Definition started_of (r : dial_result) : option bool :=
  match r with Returned _ b _ => Some b | Blocked => None end.

Definition conn_of (r : dial_result) : option conn :=
  match r with
  | Returned (inl st) _ _ => Some (s_conn (st_session st))
  | _ => None
  end.

Definition stream_id_of (r : dial_result) : option Z :=
  match r with
  | Returned (inl st) _ _ => Some (st_id st)
  | _ => None
  end.

Definition mutex_after (r : dial_result) : option bool :=
  match r with Returned _ _ d' => Some (mx d') | Blocked => None end.

(** Whether a step of the handshake reported an error. *)
Definition failed (o : option nat) : bool :=
  match o with Some _ => true | None => false end.

(** A handshake whose connector succeeds and one of whose later steps
    fails. *)
Definition fails_after_connect (h : handshake) : bool :=
  match doDial h with
  | inl _ =>
    failed (newAESSecret h) || failed (newSendIV h)
    || failed (newRecvIV h) || failed (buildClientInitMsg h)
    || failed (newDecryptCipher h) || failed (newEncryptCipher h)
  | inr _ => false
  end.

(** Whether [dial] needs a new session. *)
Definition needs_session (d : dialer) : bool :=
  match current d with
  | None => true
  | Some _ => id d >? maxStreamPerConn d
  end.

(** What [dial] keeps true of the counter: the next id is at most one
    past the maximum, and the maximum is a stream id. *)
Definition ids_ok (d : dialer) : Prop :=
  0 <= id d <= maxStreamPerConn d + 1 /\ 1 <= maxStreamPerConn d <= maxID.

End Dialer.

(** ** Values shared by the two buffers *)

(** A Go byte slice: [None] is the nil slice, which the code tells apart
    from an empty one. *)
Definition slice := option (list Byte.byte).

Definition len (b : slice) : Z :=
  match b with Some l => Z.of_nat (length l) | None => 0 end.

(** [time.Time] as the number of nanoseconds since the zero instant. *)
Definition Time := Z.
Definition IsZero (t : Time) : bool := t =? 0.
Definition Before (t u : Time) : bool := t <? u.

Inductive error :=
| EPIPE        (* syscall.EPIPE, "broken pipe" *)
| ErrTimeout
| EOF.         (* io.EOF *)

(** A [time.Timer], as far as [Stop], [Reset] and a receive from its channel
    [C] can tell: it is armed, or it has expired and its channel holds the
    expiry value, or it is neither (stopped, or expired and received). *)
Inductive timer := Armed | Expired | Idle.

(** [t.Stop()] reports whether the call stopped an armed timer. *)
Definition Stop (t : timer) : bool * timer :=
  match t with
  | Armed => (true, Idle)
  | Expired => (false, Expired)
  | Idle => (false, Idle)
  end.

(** [<-t.C]: [None] when nothing is there to receive, so that the receive
    waits. *)
Definition recvC (t : timer) : option timer :=
  match t with
  | Expired => Some Idle
  | Armed | Idle => None
  end.

(** The idiom [if !t.Stop() { <-t.C }]. After [Stop] the timer is no
    longer armed, so a receive that finds the channel empty waits for
    ever. *)
Definition stop_and_drain (t : timer) : option timer :=
  let '(stopped, t) := Stop t in
  if stopped then Some t else recvC t.

(** Frame types of the wire format (package documentation). *)
Definition frameTypeData : Byte.byte := Byte.x00.
Definition frameTypeACK : Byte.byte := Byte.x01.
Definition frameTypeRST : Byte.byte := Byte.x02.

(** Modelled from the spec: [withFrameType] is defined elsewhere in the
    package. The default header is the type byte followed by the stream id,
    and the frame type is written over the type byte of a copy. *)
Definition withFrameType (header : list Byte.byte) (frameType : Byte.byte)
  : list Byte.byte :=
  frameType :: tail header.

(** ** The send buffer ([sendbuffer.go], first half) *)

Module SendBuffer.

(** Where [sendLoop] stands. The loop only ever waits in a [select]; each
    constructor is one of them. A frame held by the loop is never nil. *)
Inductive pc :=
| Select                                  (* the [select] heading the [for] body *)
| AwaitWindow (frame : list Byte.byte)    (* window credit, or a close request *)
| AwaitWindowClosing (frame : list Byte.byte) (* window credit, or the close timeout *)
| Write (frame : list Byte.byte)          (* [write(append(frame, header...))] *)
| WriteRST                                (* the deferred [write] of the RST frame *)
| Done.                                   (* [buf.closed.Done()] has run *)

(** The buffer, the locals of its [sendLoop] goroutine, and [out]: the
    frames the session writer has received from this loop, oldest first.
    The credit window is defined elsewhere; the moment at which the handle
    returned by [window.sub(1)] becomes ready is left to the environment. *)
Record sendBuffer := {
  defaultHeader : list Byte.byte;
  windowSize : Z;                 (* capacity of [in] *)
  in_q : list slice;              (* what the channel [in] buffers *)
  in_closed : bool;               (* [close(buf.in)] has run *)
  closeRequested : option bool;   (* a channel of capacity one *)
  closing : bool;
  writeTimer : timer;
  at_pc : pc;
  sendRST : bool;
  closeOnce : bool;               (* [closeOnce.Do] has run: the closer is spawned *)
  closeTimedOut : bool;           (* [close(closeTimedOut)] has run *)
  out : list (list Byte.byte)
}.

Definition set_in (q : list slice) (s : sendBuffer) : sendBuffer :=
  {| defaultHeader := defaultHeader s; windowSize := windowSize s;
     in_q := q; in_closed := in_closed s;
     closeRequested := closeRequested s; closing := closing s;
     writeTimer := writeTimer s; at_pc := at_pc s; sendRST := sendRST s;
     closeOnce := closeOnce s; closeTimedOut := closeTimedOut s;
     out := out s |}.

Definition set_closeRequested (c : option bool) (s : sendBuffer) : sendBuffer :=
  {| defaultHeader := defaultHeader s; windowSize := windowSize s;
     in_q := in_q s; in_closed := in_closed s;
     closeRequested := c; closing := closing s;
     writeTimer := writeTimer s; at_pc := at_pc s; sendRST := sendRST s;
     closeOnce := closeOnce s; closeTimedOut := closeTimedOut s;
     out := out s |}.

Definition set_writeTimer (t : timer) (s : sendBuffer) : sendBuffer :=
  {| defaultHeader := defaultHeader s; windowSize := windowSize s;
     in_q := in_q s; in_closed := in_closed s;
     closeRequested := closeRequested s; closing := closing s;
     writeTimer := t; at_pc := at_pc s; sendRST := sendRST s;
     closeOnce := closeOnce s; closeTimedOut := closeTimedOut s;
     out := out s |}.

Definition set_pc (p : pc) (s : sendBuffer) : sendBuffer :=
  {| defaultHeader := defaultHeader s; windowSize := windowSize s;
     in_q := in_q s; in_closed := in_closed s;
     closeRequested := closeRequested s; closing := closing s;
     writeTimer := writeTimer s; at_pc := p; sendRST := sendRST s;
     closeOnce := closeOnce s; closeTimedOut := closeTimedOut s;
     out := out s |}.

Definition set_sendRST (b : bool) (s : sendBuffer) : sendBuffer :=
  {| defaultHeader := defaultHeader s; windowSize := windowSize s;
     in_q := in_q s; in_closed := in_closed s;
     closeRequested := closeRequested s; closing := closing s;
     writeTimer := writeTimer s; at_pc := at_pc s; sendRST := b;
     closeOnce := closeOnce s; closeTimedOut := closeTimedOut s;
     out := out s |}.

Definition set_closeOnce (b : bool) (s : sendBuffer) : sendBuffer :=
  {| defaultHeader := defaultHeader s; windowSize := windowSize s;
     in_q := in_q s; in_closed := in_closed s;
     closeRequested := closeRequested s; closing := closing s;
     writeTimer := writeTimer s; at_pc := at_pc s; sendRST := sendRST s;
     closeOnce := b; closeTimedOut := closeTimedOut s;
     out := out s |}.

Definition set_closeTimedOut (b : bool) (s : sendBuffer) : sendBuffer :=
  {| defaultHeader := defaultHeader s; windowSize := windowSize s;
     in_q := in_q s; in_closed := in_closed s;
     closeRequested := closeRequested s; closing := closing s;
     writeTimer := writeTimer s; at_pc := at_pc s; sendRST := sendRST s;
     closeOnce := closeOnce s; closeTimedOut := b;
     out := out s |}.

Definition push_out (f : list Byte.byte) (s : sendBuffer) : sendBuffer :=
  {| defaultHeader := defaultHeader s; windowSize := windowSize s;
     in_q := in_q s; in_closed := in_closed s;
     closeRequested := closeRequested s; closing := closing s;
     writeTimer := writeTimer s; at_pc := at_pc s; sendRST := sendRST s;
     closeOnce := closeOnce s; closeTimedOut := closeTimedOut s;
     out := out s ++ [f] |}.

(** The critical section of the goroutine spawned by [signalClose]:
    [buf.closing = true; close(buf.in)] under the write lock. *)
Definition seal (s : sendBuffer) : sendBuffer :=
  {| defaultHeader := defaultHeader s; windowSize := windowSize s;
     in_q := in_q s; in_closed := true;
     closeRequested := closeRequested s; closing := true;
     writeTimer := writeTimer s; at_pc := at_pc s; sendRST := sendRST s;
     closeOnce := closeOnce s; closeTimedOut := closeTimedOut s;
     out := out s |}.

(** [newSendBuffer]. [make(chan []byte, windowSize)] panics on a negative
    size, hence the option. The loop is spawned and waits in its first
    [select]; the write timer is armed with [largeTimeout]. *)
Definition newSendBuffer (defaultHeader : list Byte.byte) (windowSize : Z)
  : option sendBuffer :=
  if windowSize <? 0 then None else
  Some {| defaultHeader := defaultHeader; windowSize := windowSize;
          in_q := []; in_closed := false;
          closeRequested := None; closing := false;
          writeTimer := Armed; at_pc := Select; sendRST := false;
          closeOnce := false; closeTimedOut := false; out := [] |}.

(** *** Channel operations on [in] *)

(** What [sendLoop] does with a value received from [in] in its first
    [select]: for a frame that is not nil it asks the window for one credit
    ([window.sub(1)]) and waits for it; a nil frame is skipped. A received
    value always comes with [open = true]. *)
Definition on_recv (frame : slice) (s : sendBuffer) : sendBuffer :=
  match frame with
  | Some f => set_pc (AwaitWindow f) s
  | None => s
  end.

(** [buf.in <- b]. The value is buffered while the channel holds fewer than
    [windowSize] values; failing that it is handed over directly when the
    loop is waiting to receive and nothing is buffered (the only way through
    a channel of capacity zero); otherwise the send waits. *)
Definition chan_send (b : slice) (s : sendBuffer) : option sendBuffer :=
  if Z.of_nat (length (in_q s)) <? windowSize s
  then Some (set_in (in_q s ++ [b]) s)
  else
    match at_pc s, in_q s with
    | Select, [] => Some (on_recv b s)
    | _, _ => None
    end.

(** *** [send] *)

Inductive send_result :=
| SendBlocked      (* the call waits in the present state *)
| SendReturns (n : Z) (err : option error) (s' : sendBuffer).

(** [doSend]. [now] is the reading of [time.Now()]; [expired] tells, for a
    call that reaches the final [select], whether the write timer's case is
    the one that fires. *)
Definition doSend (s : sendBuffer) (b : slice) (writeDeadline now : Time)
  (expired : bool) : send_result :=
  if closing s then SendReturns 0 (Some EPIPE) s
  else if IsZero writeDeadline then
    match chan_send b s with
    | Some s' => SendReturns (len b) None s'
    | None => SendBlocked
    end
  else if Before writeDeadline now then SendReturns 0 (Some ErrTimeout) s
  else
    match stop_and_drain (writeTimer s) with
    | None => SendBlocked
    | Some _ =>
      (* [Reset] arms the timer *)
      if expired
      then SendReturns 0 (Some ErrTimeout) (set_writeTimer Idle s)
      else
        match chan_send b (set_writeTimer Armed s) with
        | Some s' => SendReturns (len b) None s'
        | None => SendBlocked
        end
    end.

(** [send]: [doSend] under the read lock, which is free whenever the
    closer is not inside [seal]. *)
Definition send (s : sendBuffer) (b : slice) (writeDeadline now : Time)
  (expired : bool) : send_result :=
  doSend s b writeDeadline now expired.

(** *** [close] *)

(** The [select] heading [close]: the request is left in [closeRequested]
    unless one is waiting there already. *)
Definition close_request (sendRST : bool) (s : sendBuffer) : sendBuffer :=
  match closeRequested s with
  | None => set_closeRequested (Some sendRST) s
  | Some _ => s
  end.

(** [if !buf.writeTimer.Stop() { <-buf.writeTimer.C }] in [close]. *)
Definition close_stop_timer (s : sendBuffer) : option sendBuffer :=
  match stop_and_drain (writeTimer s) with
  | Some t => Some (set_writeTimer t s)
  | None => None
  end.

(** [buf.closed.Wait()]: passes once the loop has run [buf.closed.Done()]. *)
Definition close_wait (s : sendBuffer) : option sendBuffer :=
  match at_pc s with
  | Done => Some s
  | _ => None
  end.

(** *** [sendLoop] and the goroutines around it *)

(** [signalClose]: the first call spawns the closer goroutine. *)
Definition signalClose (s : sendBuffer) : sendBuffer :=
  if closeOnce s then s else set_closeOnce true s.

(** A [return] from [sendLoop] runs the deferred function: with [sendRST]
    set it writes the RST frame first, then [buf.closed.Done()]. *)
Definition ret (s : sendBuffer) : sendBuffer :=
  if sendRST s then set_pc WriteRST s else set_pc Done s.

(** One atomic step of the system made of the loop, the closer goroutine
    and the callers of [send] and [close]. *)
Inductive event :=
(* [sendLoop] *)
| RecvIn               (* [case frame, open := <-buf.in] *)
| RecvCloseRequested   (* [case sendRST = <-buf.closeRequested] *)
| RecvCloseTimedOut    (* [case <-closeTimedOut] *)
| WindowAvailable      (* [case <-windowAvailable] *)
| WriterReceives       (* [case out <- b] inside [write] *)
(* the goroutine spawned by [signalClose] *)
| CloserSeals          (* takes the lock, sets [closing], closes [in] *)
| CloserTimesOut       (* [closeTimeout] later: [close(closeTimedOut)] *)
(* the write timer *)
| TimerExpires
(* callers *)
| CallSend (b : slice) (writeDeadline now : Time) (expired : bool)
| CloseRequest (sendRST : bool)
| CloseStopTimer
| CloseWait.

(** [step e s] is the state after [e], or [None] when [e] cannot happen in
    [s]. *)
Definition step (e : event) (s : sendBuffer) : option sendBuffer :=
  match e with
  | RecvIn =>
    match at_pc s with
    | Select =>
      match in_q s with
      | frame :: q => Some (on_recv frame (set_in q s))
      | [] => if in_closed s then Some (ret s) (* [!open] *) else None
      end
    | _ => None
    end
  | RecvCloseRequested =>
    match closeRequested s with
    | Some b =>
      match at_pc s with
      | Select =>
        Some (signalClose (set_sendRST b (set_closeRequested None s)))
      | AwaitWindow f =>
        Some (set_pc (AwaitWindowClosing f)
                (signalClose (set_sendRST b (set_closeRequested None s))))
      | _ => None
      end
    | None => None
    end
  | RecvCloseTimedOut =>
    if closeTimedOut s then
      match at_pc s with
      | Select => Some (ret s)
      | AwaitWindowClosing _ => Some (ret s)
      | Write _ => Some (set_pc Select s)   (* the frame is dropped *)
      | WriteRST => Some (set_pc Done s)    (* the RST frame is dropped *)
      | _ => None
      end
    else None
  | WindowAvailable =>
    match at_pc s with
    | AwaitWindow f | AwaitWindowClosing f => Some (set_pc (Write f) s)
    | _ => None
    end
  | WriterReceives =>
    match at_pc s with
    | Write f => Some (set_pc Select (push_out (f ++ defaultHeader s) s))
    | WriteRST =>
      Some (set_pc Done
              (push_out (withFrameType (defaultHeader s) frameTypeRST) s))
    | _ => None
    end
  | CloserSeals =>
    if closeOnce s && negb (closing s) then Some (seal s) else None
  | CloserTimesOut =>
    if closing s && negb (closeTimedOut s)
    then Some (set_closeTimedOut true s) else None
  | TimerExpires =>
    match writeTimer s with
    | Armed => Some (set_writeTimer Expired s)
    | _ => None
    end
  | CallSend b writeDeadline now expired =>
    match send s b writeDeadline now expired with
    | SendReturns _ _ s' => Some s'
    | SendBlocked => None
    end
  | CloseRequest sendRST => Some (close_request sendRST s)
  | CloseStopTimer => close_stop_timer s
  | CloseWait => close_wait s
  end.

(** A run: the events of a schedule one after the other. *)
Fixpoint run (tr : list event) (s : sendBuffer) : option sendBuffer :=
  match tr with
  | [] => Some s
  | e :: tr =>
    match step e s with
    | Some s' => run tr s'
    | None => None
    end
  end.

(** The payload a step gets accepted by [send] (a call that returns a nil
    error), if any. *)
Definition accepted_by (e : event) (s : sendBuffer) : list slice :=
  match e with
  | CallSend b writeDeadline now expired =>
    match send s b writeDeadline now expired with
    | SendReturns _ None _ => [b]
    | _ => []
    end
  | _ => []
  end.

(** All the payloads accepted along a run, in order. *)
Fixpoint accepted (tr : list event) (s : sendBuffer) : list slice :=
  match tr with
  | [] => []
  | e :: tr =>
    match step e s with
    | Some s' => accepted_by e s ++ accepted tr s'
    | None => []
    end
  end.

(** The frames among them that are not nil: the loop skips nil ones. *)
Definition frames (l : list slice) : list (list Byte.byte) :=
  omap (fun b : slice => b) l.

(** The frame the loop is holding. *)
Definition pending (s : sendBuffer) : list (list Byte.byte) :=
  match at_pc s with
  | AwaitWindow f | AwaitWindowClosing f | Write f => [f]
  | _ => []
  end.

(** The frames the buffer holds for the senders, oldest first: the one in
    the loop's hands, then those queued. *)
Definition held (s : sendBuffer) : list (list Byte.byte) :=
  pending s ++ frames (in_q s).

(** What the session writer has received when the loop has forwarded the
    frames [fwd] and, if [rst] is set, the RST frame after them. *)
Definition wire (header : list Byte.byte) (fwd : list (list Byte.byte))
  (rst : bool) : list (list Byte.byte) :=
  map (fun frame => frame ++ header) fwd
  ++ (if rst then [withFrameType header frameTypeRST] else []).

(** Facts about the flags that hold in every state of a run. *)
Definition ctl_inv (s : sendBuffer) : Prop :=
  (in_closed s = true -> closing s = true) /\
  (closeTimedOut s = true -> closing s = true) /\
  (closing s = true -> closeOnce s = true) /\
  (at_pc s = WriteRST \/ at_pc s = Done -> closing s = true) /\
  (at_pc s = WriteRST -> sendRST s = true).

(** How [out] relates to the frames accepted so far ([acc]). *)
Definition data_inv (s : sendBuffer) (acc fwd : list (list Byte.byte))
  (rst : bool) : Prop :=
  out s = wire (defaultHeader s) fwd rst /\
  (rst = true -> at_pc s = Done /\ sendRST s = true) /\
  sublist (fwd ++ held s) acc /\
  (closeTimedOut s = false -> fwd ++ held s = acc) /\
  (at_pc s = Done -> sendRST s = true -> closeTimedOut s = false ->
   rst = true) /\
  (at_pc s = WriteRST \/ at_pc s = Done -> closeTimedOut s = false ->
   in_q s = []).

(** Every close request of a schedule asks for the RST frame. *)
Definition all_rst (tr : list event) : Prop :=
  forall b, In (CloseRequest b) tr -> b = true.

(** No request without RST is waiting, and once the loop has taken a
    request its [sendRST] is set. *)
Definition rst_inv (s : sendBuffer) : Prop :=
  closeRequested s <> Some false /\
  (closeOnce s = true -> sendRST s = true).

(** The schedule of one undisturbed [close(sendRST)] on a buffer whose
    queue is empty: the request, the timer idiom, the loop's reaction, the
    closer sealing the queue, the loop leaving (after the RST frame, if
    one was asked for), and [Wait] passing. *)
Definition one_close (sendRST : bool) : list event :=
  [CloseRequest sendRST; CloseStopTimer; RecvCloseRequested; CloserSeals;
   RecvIn]
  ++ (if sendRST then [WriterReceives] else [])
  ++ [CloseWait].

(** The number of window credits the loop has obtained along a schedule. *)
Fixpoint granted (tr : list event) : nat :=
  match tr with
  | [] => 0
  | WindowAvailable :: tr => S (granted tr)
  | _ :: tr => granted tr
  end.

(** One more frame counts against the credits while the loop is writing
    it; the RST frame needs no credit and is written last. *)
Definition in_flight (s : sendBuffer) : nat :=
  match at_pc s with Write _ => 1 | _ => 0 end.

Definition past_end (s : sendBuffer) : nat :=
  match at_pc s with Done => 1 | _ => 0 end.

(** No close request of a schedule asks for the RST frame. *)
Definition none_rst (tr : list event) : Prop :=
  forall b, In (CloseRequest b) tr -> b = false.

End SendBuffer.

(** ** The receive buffer ([sendbuffer.go], second half) *)

Module ReceiveBuffer.

(** Modelled from the spec: [dataHeaderSize] is declared elsewhere in the
    package. A data frame starts with one type byte, three bytes of stream
    id and two bytes of length. *)
Definition dataHeaderSize : nat := 6.

(** Modelled from the spec: [largeDeadline] is declared elsewhere in the
    package; it stands for "no timeout", an instant that no clock reading
    used here reaches. *)
Definition largeDeadline : Time := 2 ^ 62.

(** [ackWithFrames(header, frames)] is defined elsewhere in the package;
    an ACK frame is kept as the two arguments it is built from. *)
Record ack_frame := ackWithFrames { ack_header : list Byte.byte; ack_frames : Z }.

Record receiveBuffer := {
  defaultHeader : list Byte.byte;
  windowSize : Z;
  ackInterval : Z;
  unacked : Z;                      (* int *)
  in_q : list slice;                (* what the channel [in] buffers *)
  in_closed : bool;                 (* [close(buf.in)] has run *)
  ack : list ack_frame;             (* sent on the ACK channel, oldest first *)
  pool : list (list Byte.byte);     (* handed back with [pool.Put], latest first *)
  poolable : slice;
  current : list Byte.byte;
  closed : bool
}.

Definition set_unacked (u : Z) (buf : receiveBuffer) : receiveBuffer :=
  {| defaultHeader := defaultHeader buf; windowSize := windowSize buf;
     ackInterval := ackInterval buf; unacked := u;
     in_q := in_q buf; in_closed := in_closed buf; ack := ack buf;
     pool := pool buf; poolable := poolable buf; current := current buf;
     closed := closed buf |}.

Definition set_in (q : list slice) (buf : receiveBuffer) : receiveBuffer :=
  {| defaultHeader := defaultHeader buf; windowSize := windowSize buf;
     ackInterval := ackInterval buf; unacked := unacked buf;
     in_q := q; in_closed := in_closed buf; ack := ack buf;
     pool := pool buf; poolable := poolable buf; current := current buf;
     closed := closed buf |}.

Definition set_ack (a : list ack_frame) (buf : receiveBuffer) : receiveBuffer :=
  {| defaultHeader := defaultHeader buf; windowSize := windowSize buf;
     ackInterval := ackInterval buf; unacked := unacked buf;
     in_q := in_q buf; in_closed := in_closed buf; ack := a;
     pool := pool buf; poolable := poolable buf; current := current buf;
     closed := closed buf |}.

Definition set_pool (p : list (list Byte.byte)) (buf : receiveBuffer)
  : receiveBuffer :=
  {| defaultHeader := defaultHeader buf; windowSize := windowSize buf;
     ackInterval := ackInterval buf; unacked := unacked buf;
     in_q := in_q buf; in_closed := in_closed buf; ack := ack buf;
     pool := p; poolable := poolable buf; current := current buf;
     closed := closed buf |}.

Definition set_poolable (p : slice) (buf : receiveBuffer) : receiveBuffer :=
  {| defaultHeader := defaultHeader buf; windowSize := windowSize buf;
     ackInterval := ackInterval buf; unacked := unacked buf;
     in_q := in_q buf; in_closed := in_closed buf; ack := ack buf;
     pool := pool buf; poolable := p; current := current buf;
     closed := closed buf |}.

Definition set_current (c : list Byte.byte) (buf : receiveBuffer)
  : receiveBuffer :=
  {| defaultHeader := defaultHeader buf; windowSize := windowSize buf;
     ackInterval := ackInterval buf; unacked := unacked buf;
     in_q := in_q buf; in_closed := in_closed buf; ack := ack buf;
     pool := pool buf; poolable := poolable buf; current := c;
     closed := closed buf |}.

(** [int(math.Ceil(float64(windowSize) / 10))]. The division is carried
    out on rationals: for a window below 2^53 the conversion to [float64]
    is exact and the rounding error of the quotient (at most 2^-4) is less
    than its distance (at least 1/10) to the next integer, so that
    [math.Ceil] returns the exact ceiling. *)
Definition ceil_tenth (windowSize : Z) : Z :=
  Qceiling (inject_Z windowSize / 10).

(** [newReceiveBuffer]. [make(chan []byte, windowSize)] panics on a
    negative size (and on one too large to allocate, far below 2^53),
    hence the option. *)
Definition newReceiveBuffer (defaultHeader : list Byte.byte) (windowSize : Z)
  : option receiveBuffer :=
  if windowSize <? 0 then None else
  Some {| defaultHeader := defaultHeader; windowSize := windowSize;
          ackInterval := ceil_tenth windowSize; unacked := 0;
          in_q := []; in_closed := false; ack := []; pool := [];
          poolable := None; current := []; closed := false |}.

(** [submit]: [None] when the call waits for room in [in]. *)
Definition submit (frame : slice) (buf : receiveBuffer) : option receiveBuffer :=
  if closed buf then Some buf
  else if Z.of_nat (length (in_q buf)) <? windowSize buf
  then Some (set_in (in_q buf ++ [frame]) buf)
  else None.

(** [close]. *)
Definition close (buf : receiveBuffer) : receiveBuffer :=
  if negb (closed buf) then
    {| defaultHeader := defaultHeader buf; windowSize := windowSize buf;
       ackInterval := ackInterval buf; unacked := unacked buf;
       in_q := in_q buf; in_closed := true; ack := ack buf;
       pool := pool buf; poolable := poolable buf; current := current buf;
       closed := true |}
  else buf.

(** [onFrame]. The previous frame goes back to the pool, the new one is
    remembered, its payload becomes [current] and [unacked] grows by one.
    [frame[dataHeaderSize:]] panics on a frame shorter than the header:
    [inr] is the state at the panic. *)
Definition onFrame (frame : slice) (buf : receiveBuffer)
  : receiveBuffer + receiveBuffer :=
  let buf :=
    match poolable buf with
    | Some p => set_pool (p :: pool buf) buf
    | None => buf
    end in
  let buf := set_poolable frame buf in
  let bytes := default [] frame in
  if (length bytes <? dataHeaderSize)%nat then inr buf
  else
    let buf := set_current (drop dataHeaderSize bytes) buf in
    inl (set_unacked (int64 (unacked buf + 1)) buf).

(** How a blocking [select] of [read] ends, and what [time.Now()] reads
    the next time it is asked. *)
Inductive wake :=
| TimerFires                       (* [case <-timer.C] *)
| FrameArrives (frame : slice)     (* a [submit] hands a frame over *)
| ChannelClosed.                   (* [close] has sealed [in] *)

Record wait := { wakes : wake; clock : Time }.

Inductive read_result :=
| ReadBlocked       (* the call waits and nothing in the schedule ends the wait *)
| ReadPanics (buf' : receiveBuffer)
| ReadReturns (data : list Byte.byte) (totalN : Z) (err : option error)
    (buf' : receiveBuffer).

(** The [for] loop of [read]. The destination [b] is given by its length;
    [data] collects the bytes copied into it so far; [now] is what
    [time.Now()] reads. Frames submitted by other goroutines are those in
    [in_q] at the call and those that arrive while the call waits, listed
    in [waits]. Every turn either returns or takes a frame from [in_q] or
    an entry from [waits]; [fuel] bounds the number of turns. *)
Fixpoint read_loop (fuel : nat) (buf : receiveBuffer) (b : nat)
  (data : list Byte.byte) (totalN : Z) (deadline now : Time)
  (waits : list wait) : read_result :=
  match fuel with
  | O => ReadBlocked
  | S fuel =>
    let n := Nat.min b (length (current buf)) in      (* [copy(b, buf.current)] *)
    let data := data ++ take n (current buf) in
    let buf := set_current (drop n (current buf)) buf in
    let totalN := totalN + Z.of_nat n in
    if (n =? b)%nat then ReadReturns data totalN None buf
    else
      let b := (b - n)%nat in
      match in_q buf with
      | frame :: q =>
        match onFrame frame (set_in q buf) with
        | inl buf => read_loop fuel buf b data totalN deadline now waits
        | inr buf => ReadPanics buf
        end
      | [] =>
        if in_closed buf then ReadReturns data totalN (Some EOF) buf
        else if totalN >? 0 then ReadReturns data totalN None buf
        else if negb (IsZero deadline) && Before deadline now
        then ReadReturns data totalN None buf
        else
          let deadline :=
            if IsZero deadline then largeDeadline else deadline in
          match waits with
          | [] => ReadBlocked
          | w :: waits =>
            match wakes w with
            | TimerFires => ReadReturns data totalN (Some ErrTimeout) buf
            | ChannelClosed =>
              ReadReturns data totalN (Some EOF) (close buf)
            | FrameArrives frame =>
              match onFrame frame buf with
              | inl buf =>
                read_loop fuel buf b data totalN deadline (clock w) waits
              | inr buf => ReadPanics buf
              end
            end
          end
      end
  end.

(** The deferred function of [read]. The send on the ACK channel is taken
    to go through: the session writer drains that channel. *)
Definition flush_ack (buf : receiveBuffer) : receiveBuffer :=
  if unacked buf >=? ackInterval buf then
    set_unacked 0
      (set_ack (ack buf ++ [ackWithFrames (defaultHeader buf) (int16 (unacked buf))])
         buf)
  else buf.

(** [read]: the loop, then the deferred function, which also runs when the
    loop panics. *)
Definition read (buf : receiveBuffer) (b : nat) (deadline now : Time)
  (waits : list wait) : read_result :=
  match
    read_loop (S (length (in_q buf) + length waits)) buf b [] 0 deadline now
      waits
  with
  | ReadBlocked => ReadBlocked
  | ReadPanics buf' => ReadPanics (flush_ack buf')
  | ReadReturns data totalN err buf' => ReadReturns data totalN err (flush_ack buf')
  end.

(** A deadline that is set and lies before the clock reading. *)
Definition past (deadline now : Time) : bool :=
  negb (IsZero deadline) && Before deadline now.

(** The payload of a frame: what [onFrame] makes [current]. *)
Definition payload (frame : slice) : list Byte.byte :=
  drop dataHeaderSize (default [] frame).

(** [unacked] after [k] calls of [onFrame]. *)
Definition bump (k : nat) (u : Z) : Z :=
  Nat.iter k (fun u => int64 (u + 1)) u.

(** The frames that end the waits of a schedule. *)
Definition arrivals (waits : list wait) : list slice :=
  omap (fun w => match wakes w with FrameArrives f => Some f | _ => None end)
    waits.

(** The payload [current] is drawn from after the frames [fs] have been
    taken one after the other: that of the last one, or the old [current]
    when no frame was taken. *)
Definition last_payload (cur : list Byte.byte) (fs : list slice)
  : list Byte.byte :=
  match list.last fs with
  | Some f => payload f
  | None => cur
  end.

(** What one run of the loop does, in terms of the frames [qs] it takes
    from the queue and the frames [ws] that arrive while it waits. *)
Definition loop_post (buf : receiveBuffer) (b : nat) (data : list Byte.byte)
  (totalN : Z) (waits : list wait) (r : read_result) : Prop :=
  match r with
  | ReadBlocked => True
  | ReadPanics buf' =>
    ack buf' = ack buf /\ ackInterval buf' = ackInterval buf /\
    defaultHeader buf' = defaultHeader buf
  | ReadReturns data' n' err buf' =>
    exists qs ws,
      in_q buf = qs ++ in_q buf' /\
      ws `prefix_of` arrivals waits /\
      data' ++ current buf'
        = data ++ current buf ++ concat (map payload (qs ++ ws)) /\
      current buf' `suffix_of` last_payload (current buf) (qs ++ ws) /\
      data `prefix_of` data' /\
      (length data' <= length data + b)%nat /\
      (length data + Nat.min b (length (current buf)) <= length data')%nat /\
      n' = totalN + Z.of_nat (length data') - Z.of_nat (length data) /\
      unacked buf' = bump (length (qs ++ ws)) (unacked buf) /\
      ack buf' = ack buf /\ ackInterval buf' = ackInterval buf /\
      defaultHeader buf' = defaultHeader buf
  end.

(** A frame long enough for [onFrame] to cut the header off. *)
Definition well_formed (frame : slice) : Prop :=
  (dataHeaderSize <= length (default [] frame))%nat.

(** The bytes the buffer holds for the reader, in order: what is left of
    the current payload, then the payloads of the queued frames. *)
Definition buffered (buf : receiveBuffer) : list Byte.byte :=
  current buf ++ concat (map payload (in_q buf)).

(** The bytes still to be delivered belong to the frame the buffer holds:
    that frame has not gone back to the pool. *)
Definition holds_current (buf : receiveBuffer) : Prop :=
  current buf `suffix_of` payload (poolable buf).

(** The in-queue respects its capacity. *)
Definition within_window (buf : receiveBuffer) : Prop :=
  Z.of_nat (length (in_q buf)) <= Z.max 0 (windowSize buf).

(** The state a [read] leaves behind, when it ends. *)
Definition state_after (r : read_result) : option receiveBuffer :=
  match r with
  | ReadBlocked => None
  | ReadPanics buf' => Some buf'
  | ReadReturns _ _ _ buf' => Some buf'
  end.

End ReceiveBuffer.

(** ** Operation tracking ([ops/ops.go]) *)

Module Ops.

(** A non-nil [error]: its concrete type and what its method [Error]
    returns. The nil error is [None]. *)
Record error_value := { dynamic_type : nat; Error : string }.

(** A value of a context map ([interface{}]). *)
Inductive value :=
| VString (s : string)
| VOther (n : nat).

(** [map[string]interface{}]. *)
Definition Map := gmap string value.

(** [context.Context] is declared in a package that is not among the
    sources. Of a context, [End] uses [AsMap], taken here as an arbitrary
    function, and [Exit], whose call is recorded. *)
Record Context := { AsMap : option error_value -> bool -> Map }.

(** The struct [op]. The [atomic.Value] holds the last error stored, if
    any. *)
Record op := {
  ctx : Context;
  canceled : bool;
  failure : option error_value }.

(** What [End] does to the outside: it calls a reporter (named by a
    number) with a failure and a map, and it exits the context. *)
Inductive effect :=
| Reported (reporter : nat) (failure : option error_value) (m : Map)
| Exited.

(** [RegisterReporter], on the package variable [reporters]. *)
Definition RegisterReporter (reporter : nat) (reporters : list nat)
  : list nat :=
  reporters ++ [reporter].

(** [Begin] and [op.Begin]: a new op around the context that the context
    package hands out. *)
Definition Begin (c : Context) : op :=
  {| ctx := c; canceled := false; failure := None |}.

(** [Cancel]. *)
Definition Cancel (o : op) : op :=
  {| ctx := ctx o; canceled := true; failure := failure o |}.

(** [atomic.Value.Store] of a non-nil value: it panics ([None]) when the
    concrete type of the value differs from that of the value stored
    before. *)
Definition Store (v : error_value) (cur : option error_value)
  : option (option error_value) :=
  match cur with
  | Some old =>
    if (dynamic_type old =? dynamic_type v)%nat then Some (Some v) else None
  | None => Some (Some v)
  end.

(** [FailIf]: the error returned and the op, or [None] when [Store]
    panics. *)
Definition FailIf (err : option error_value) (o : op)
  : option (option error_value * op) :=
  match err with
  | Some v =>
    match Store v (failure o) with
    | Some f => Some (err, {| ctx := ctx o; canceled := canceled o; failure := f |})
    | None => None
    end
  | None => Some (err, o)
  end.

(** [End], given the registered reporters: the calls it makes, in order.
    The map is built once and handed to every reporter. *)
Definition End_ (reporters : list nat) (o : op) : list effect :=
  if canceled o then []
  else
    match reporters with
    | [] => []
    | _ :: _ =>
      let _failure := failure o in
      let m := AsMap (ctx o) _failure true in
      let m :=
        match _failure with
        | Some f =>
          match m !! "error"%string with
          | Some _ => m
          | None => <["error"%string := VString (Error f)]> m
          end
        | None => m
        end in
      map (fun reporter => Reported reporter _failure m) reporters
    end ++ [Exited].

(** The calls a client makes on an op before it ends it. *)
Inductive call :=
| CallFailIf (err : option error_value)
| CallCancel.

Fixpoint calls (cs : list call) (o : op) : option op :=
  match cs with
  | [] => Some o
  | CallFailIf err :: cs =>
    match FailIf err o with
    | Some (_, o) => calls cs o
    | None => None
    end
  | CallCancel :: cs => calls cs (Cancel o)
  end.

(** The last non-nil error among the calls, after [acc]. *)
Fixpoint latest (cs : list call) (acc : option error_value)
  : option error_value :=
  match cs with
  | [] => acc
  | CallFailIf (Some v) :: cs => latest cs (Some v)
  | _ :: cs => latest cs acc
  end.

(** Whether [Cancel] is among the calls. *)
Fixpoint cancels (cs : list call) : bool :=
  match cs with
  | [] => false
  | CallCancel :: _ => true
  | _ :: cs => cancels cs
  end.

(** The concrete types of the non-nil errors among the calls. *)
Fixpoint error_types (cs : list call) : list nat :=
  match cs with
  | [] => []
  | CallFailIf (Some v) :: cs => dynamic_type v :: error_types cs
  | _ :: cs => error_types cs
  end.

(** The errors among the calls are all of one concrete type. *)
Definition one_type (ts : list nat) : Prop :=
  forall t u, In t ts -> In u ts -> t = u.

(** The package variable [reporters] after the given reporters have been
    registered one after the other. *)
Definition registered (rs : list nat) : list nat :=
  fold_left (fun reporters reporter => RegisterReporter reporter reporters)
    rs [].

End Ops.

(** * Properties *)

(** ** Machine integers *)

Lemma int16_small z : - 2 ^ 15 <= z < 2 ^ 15 -> int16 z = z.
Proof.
  intros Hz. unfold int16.
  rewrite Z.mod_small by lia. lia.
Qed.

Lemma int64_small z : - 2 ^ 63 <= z < 2 ^ 63 -> int64 z = z.
Proof.
  intros Hz. unfold int64.
  rewrite Z.mod_small by lia. lia.
Qed.

(** ** The dialer *)

Module DialerFacts.
Import Dialer.

Lemma needs_session_spec d :
  needs_session d = true <-> current d = None \/ id d > maxStreamPerConn d.
Proof.
  unfold needs_session. destruct (current d).
  - rewrite Z.gtb_gt. split; [auto | intros [H | H]; [discriminate | exact H]].
  - split; auto.
Qed.

Lemma startSession_fails_after_connect d h :
  fails_after_connect h = true ->
  exists err, startSession d h = (inr err, d).
Proof.
  unfold fails_after_connect, startSession.
  destruct (doDial h); [| discriminate].
  destruct (newAESSecret h); [eauto |].
  destruct (newSendIV h); [eauto |].
  destruct (newRecvIV h); [eauto |].
  destruct (buildClientInitMsg h); [eauto |].
  destruct (newDecryptCipher h); [eauto |].
  destruct (newEncryptCipher h); [eauto |].
  discriminate.
Qed.

Lemma startSession_mx d h r d' :
  startSession d h = (r, d') ->
  mx d' = match doDial h with inr _ => false | inl _ => mx d end.
Proof.
  unfold startSession.
  destruct (doDial h); [| by intros [= <- <-]].
  destruct (newAESSecret h); [by intros [= <- <-] |].
  destruct (newSendIV h); [by intros [= <- <-] |].
  destruct (newRecvIV h); [by intros [= <- <-] |].
  destruct (buildClientInitMsg h); [by intros [= <- <-] |].
  destruct (newDecryptCipher h); [by intros [= <- <-] |].
  destruct (newEncryptCipher h); by intros [= <- <-].
Qed.

(** On the paths that work, [dial] gives the mutex back: when it returns a
    stream, and when the connector fails. *)
Lemma dial_stream_unlocks d h st started d' :
  dial d h = Returned (inl st) started d' -> mx d' = false.
Proof.
  destruct d as [w m cur i l]. unfold dial. cbn.
  destruct l; [discriminate |].
  destruct (i >? m), cur as [cur |]; cbn;
    try (intros [= <- <- <-]; reflexivity);
    match goal with
    | |- context [startSession ?x h] =>
        destruct (startSession x h) as [[s | err] d1]
    end;
    intros [= <- <- <-]; reflexivity.
Qed.

Lemma dial_connector_failure_unlocks d h e r started d' :
  doDial h = inr e ->
  dial d h = Returned r started d' -> mx d' = false.
Proof.
  intros He. destruct d as [w m cur i l]. unfold dial. cbn.
  destruct l; [discriminate |].
  destruct (i >? m), cur as [cur |]; cbn;
    try (intros [= <- <- <-]; reflexivity);
    match goal with
    | |- context [startSession ?x h] =>
        destruct (startSession x h) as [[s | err] d1] eqn:Hs;
        apply startSession_mx in Hs; rewrite He in Hs
    end;
    intros [= <- <- <-]; cbn; auto.
Qed.

(** C10. [StreamDialer] clamps [maxStreamsPerConn]: given zero or a value
    above [maxID] = 2^24 - 1 it builds the very dialer it builds for
    2^24 - 1, and a value between 1 and 2^24 - 1 is stored unchanged. *)
Theorem StreamDialer_clamps (windowSize m : Z) :
  (m = 0 \/ m > maxID ->
   StreamDialer windowSize m = StreamDialer windowSize maxID) /\
  (1 <= m <= maxID ->
   maxStreamPerConn (StreamDialer windowSize m) = m) /\
  maxID = 2 ^ 24 - 1.
Proof.
  unfold StreamDialer, maxID. rewrite !Z.gtb_ltb. repeat split.
  - intros [-> | Hm]; [reflexivity |].
    destruct (Z.leb_spec m 0), (Z.ltb_spec (2 ^ 24 - 1) m);
      try lia; reflexivity.
  - intros Hm. cbn [maxStreamPerConn].
    destruct (Z.leb_spec m 0), (Z.ltb_spec (2 ^ 24 - 1) m);
      try lia; reflexivity.
Qed.

Lemma StreamDialer_clamps_witness :
  StreamDialer 25 0 = StreamDialer 25 maxID /\
  StreamDialer 25 (2 ^ 24) = StreamDialer 25 maxID /\
  maxStreamPerConn (StreamDialer 25 2) = 2.
Proof.
  split; [| split].
  - apply (proj1 (StreamDialer_clamps 25 0)). left. reflexivity.
  - apply (proj1 (StreamDialer_clamps 25 (2 ^ 24))). right. reflexivity.
  - apply (proj1 (proj2 (StreamDialer_clamps 25 2))). unfold maxID. lia.
Defined.

(** C1, as stated, fails: with at most 2 streams per session configured,
    the third stream in a row does not open a new connection. The ids 0, 1
    and 2 all pass the test [d.id > d.maxStreamPerConn]. *)
Lemma rotation_after_two_fails :
  ~ (exists r1 r2 r3,
       dial_all (StreamDialer 25 2)
         [handshake_ok 1; handshake_ok 2; handshake_ok 3]%nat = [r1; r2; r3]
       /\ conn_of r1 = conn_of r2
       /\ started_of r3 = Some true
       /\ conn_of r3 <> conn_of r2).
Proof.
  intros (r1 & r2 & r3 & Heq & _ & Hstart & _).
  vm_compute in Heq. injection Heq as <- <- <-. discriminate Hstart.
Qed.

(** C1, amended. A call of [dial] that finds the mutex free returns, and it
    starts a new session exactly when the dialer has no current session
    (none yet, or the last one signalled that it closed) or the next id is
    greater than the configured maximum; otherwise the stream is created
    on the current session under the next id. Hence with a maximum of 2
    the first three streams (ids 0, 1, 2) share one physical connection
    and the fourth opens a new one. *)
Theorem dial_rotates_exactly_when_needed (d : dialer) (h : handshake) :
  mx d = false ->
  (exists r started d',
     dial d h = Returned r started d' /\
     (started = true <-> current d = None \/ id d > maxStreamPerConn d) /\
     (started = false ->
      exists cur, current d = Some cur /\
        r = inl {| st_session := cur; st_id := id d |})) /\
  (forall w c1 c2 c3 c4,
     let rs := dial_all (StreamDialer w 2)
                 [handshake_ok c1; handshake_ok c2; handshake_ok c3;
                  handshake_ok c4] in
     map conn_of rs = [Some c1; Some c1; Some c1; Some c4] /\
     map stream_id_of rs = [Some 0; Some 1; Some 2; Some 0] /\
     map started_of rs = [Some true; Some false; Some false; Some true]).
Proof.
  intros Hmx. split; [| intros; vm_compute; auto].
  destruct d as [w m cur i l]. unfold dial. cbn in *. subst l.
  destruct (i >? m) eqn:Hid, cur as [cur |]; cbn;
    rewrite Z.gtb_ltb in Hid;
    first [apply Z.ltb_lt in Hid | apply Z.ltb_ge in Hid];
    try match goal with
    | |- context [startSession ?x h] =>
        destruct (startSession x h) as [[s | err] d1]
    end;
    do 3 eexists; (split; [reflexivity |]); split;
    try (split; intros H; [auto; right; lia | reflexivity]);
    try discriminate.
  - split; [discriminate |]. intros [H | H]; [discriminate | lia].
  - intros _. exists cur. split; reflexivity.
Qed.

Lemma dial_rotates_exactly_when_needed_witness :
  (exists r started d',
     dial (StreamDialer 25 2) (handshake_ok 1%nat) = Returned r started d' /\
     (started = true <->
      current (StreamDialer 25 2) = None \/
      id (StreamDialer 25 2) > maxStreamPerConn (StreamDialer 25 2)) /\
     (started = false ->
      exists cur, current (StreamDialer 25 2) = Some cur /\
        r = inl {| st_session := cur; st_id := id (StreamDialer 25 2) |})).
Proof.
  apply (proj1 (dial_rotates_exactly_when_needed (StreamDialer 25 2)
                  (handshake_ok 1%nat) eq_refl)).
Defined.

(** C4 fails on the code. When the connector succeeds and a later step of
    [startSession] fails (secret, IV, init message, cipher), [dial] returns
    the error with the mutex still held, and every later [dial] waits for
    it for ever. Only the connector's failure branch unlocks. *)
Theorem dial_late_failure_keeps_mutex (d : dialer) (h : handshake) :
  mx d = false ->
  current d = None \/ id d > maxStreamPerConn d ->
  fails_after_connect h = true ->
  exists err d',
    dial d h = Returned (inr err) true d' /\
    mx d' = true /\
    forall h', dial d' h' = Blocked.
Proof.
  intros Hmx Hneed Hfail. apply needs_session_spec in Hneed.
  destruct d as [w m cur i l]. unfold dial, needs_session in *.
  cbn in *. subst l.
  destruct (i >? m) eqn:Hid, cur as [cur |]; cbn;
    try discriminate;
    match goal with
    | |- context [startSession ?x h] =>
        destruct (startSession_fails_after_connect x h Hfail) as [err ->]
    end;
    do 2 eexists; (split; [reflexivity |]); split; reflexivity.
Qed.

Lemma dial_late_failure_keeps_mutex_witness :
  exists err d',
    dial (StreamDialer 25 0)
      {| doDial := inl 1%nat; newAESSecret := Some 5%nat; newSendIV := None;
         newRecvIV := None; buildClientInitMsg := None;
         newDecryptCipher := None; newEncryptCipher := None |}
    = Returned (inr err) true d' /\
    mx d' = true /\
    forall h', dial d' h' = Blocked.
Proof.
  apply dial_late_failure_keeps_mutex.
  - reflexivity.
  - left. reflexivity.
  - reflexivity.
Defined.

End DialerFacts.

(** ** The send buffer: [send] and [close] *)

Module SendFacts.
Import SendBuffer.

Lemma chan_send_buffered b s :
  0 < windowSize s ->
  forall s', chan_send b s = Some s' -> s' = set_in (in_q s ++ [b]) s.
Proof.
  intros Hw s'. unfold chan_send.
  destruct (Z.ltb_spec (Z.of_nat (length (in_q s))) (windowSize s)) as [Hlt | Hge].
  - by intros [= <-].
  - destruct (at_pc s); try discriminate.
    destruct (in_q s); [cbn in Hge; lia | discriminate].
Qed.

Lemma chan_send_cases b s s' :
  chan_send b s = Some s' ->
  s' = set_in (in_q s ++ [b]) s \/
  (windowSize s <= 0 /\ at_pc s = Select /\ in_q s = [] /\ s' = on_recv b s).
Proof.
  unfold chan_send.
  destruct (Z.ltb_spec (Z.of_nat (length (in_q s))) (windowSize s)) as [Hlt | Hge].
  - intros [= <-]. by left.
  - destruct (at_pc s) eqn:Hpc; try discriminate.
    destruct (in_q s) eqn:Hq; [| discriminate].
    intros [= <-]. right. cbn in Hge. repeat split. lia.
Qed.

(** C8. The result contract of [send]. On a closing buffer the call fails
    with the broken-pipe error and changes nothing. Otherwise a call that
    succeeds returns the length of the payload and has put the payload
    into the in-queue: at its tail, or (for a queue of capacity zero)
    straight into the hands of the waiting loop. With a zero deadline the
    call either succeeds or waits for room: it never times out. *)
Theorem send_contract (s : sendBuffer) (b : slice) (writeDeadline now : Time)
  (expired : bool) :
  (closing s = true ->
   send s b writeDeadline now expired = SendReturns 0 (Some EPIPE) s) /\
  (closing s = false ->
   forall n s',
     send s b writeDeadline now expired = SendReturns n None s' ->
     n = len b /\
     (0 < windowSize s -> in_q s' = in_q s ++ [b]) /\
     (in_q s' = in_q s ++ [b] \/
      (windowSize s <= 0 /\ at_pc s = Select /\ in_q s = [] /\
       in_q s' = [] /\ at_pc s' = at_pc (on_recv b s)))) /\
  (closing s = false -> writeDeadline = 0 ->
   match chan_send b s with
   | Some s' => send s b writeDeadline now expired = SendReturns (len b) None s'
   | None => send s b writeDeadline now expired = SendBlocked
   end).
Proof.
  unfold send, doSend. split; [| split].
  - intros ->. reflexivity.
  - intros -> n s'.
    assert (Hadm : forall s1, in_q s1 = in_q s -> at_pc s1 = at_pc s ->
              windowSize s1 = windowSize s ->
              match chan_send b s1 with
              | Some s2 => SendReturns (len b) None s2
              | None => SendBlocked
              end = SendReturns n None s' ->
              n = len b /\
              (0 < windowSize s -> in_q s' = in_q s ++ [b]) /\
              (in_q s' = in_q s ++ [b] \/
               (windowSize s <= 0 /\ at_pc s = Select /\ in_q s = [] /\
                in_q s' = [] /\ at_pc s' = at_pc (on_recv b s)))).
    { intros s1 Hq Hpc Hw. destruct (chan_send b s1) as [s2 |] eqn:Hs;
        [| discriminate].
      intros [= <- <-]. split; [reflexivity |]. split.
      - intros Hpos. rewrite <- Hw in Hpos.
        rewrite (chan_send_buffered _ _ Hpos _ Hs). cbn. by rewrite Hq.
      - apply chan_send_cases in Hs as [-> | (H1 & H2 & H3 & ->)].
        + left. cbn. by rewrite Hq.
        + right. rewrite <- Hw, <- Hpc, <- Hq. repeat split; try done.
          * destruct b; cbn; done.
          * destruct b; cbn; congruence. }
    destruct (IsZero writeDeadline); [by apply Hadm |].
    destruct (Before writeDeadline now); [discriminate |].
    destruct (stop_and_drain (writeTimer s)); [| discriminate].
    destruct expired; [discriminate |]. by apply Hadm.
  - intros -> ->. cbn. destruct (chan_send b s); reflexivity.
Qed.

Lemma send_contract_witness :
  match newSendBuffer [Byte.x00; Byte.x00; Byte.x00; Byte.x07] 4 with
  | Some s0 =>
    send (seal s0) (Some [Byte.x41]) 0 0 false
      = SendReturns 0 (Some EPIPE) (seal s0) /\
    (1 = len (Some [Byte.x41]) /\
     in_q (set_in [Some [Byte.x41]] s0) = in_q s0 ++ [Some [Byte.x41]]) /\
    send s0 (Some [Byte.x41]) 0 0 false
      = SendReturns 1 None (set_in [Some [Byte.x41]] s0)
  | None => False
  end.
Proof.
  cbv beta iota delta [newSendBuffer Z.ltb Z.compare].
  set (s0 := {| defaultHeader := _ |}).
  split; [| split].
  - apply (proj1 (send_contract (seal s0) (Some [Byte.x41]) 0 0 false)).
    reflexivity.
  - destruct (proj1 (proj2 (send_contract s0 (Some [Byte.x41]) 0 0 false))
                eq_refl 1 (set_in [Some [Byte.x41]] s0) eq_refl)
      as (Hn & Hq & _).
    split; [exact Hn | apply Hq; reflexivity].
  - apply (proj2 (proj2 (send_contract s0 (Some [Byte.x41]) 0 0 false))
             eq_refl eq_refl).
Defined.

(** Unfolding one step of the system down to the record fields, and
    splitting on every test it makes. *)
Ltac sb_unfold :=
  unfold step, send, doSend, chan_send, close_request, close_stop_timer,
    close_wait, stop_and_drain, Stop, recvC, ret, on_recv, signalClose,
    seal, push_out, set_in, set_closeRequested, set_writeTimer, set_pc,
    set_sendRST, set_closeOnce, set_closeTimedOut, IsZero, Before in *;
  cbn -[Z.ltb Z.eqb Z.of_nat] in *.

Ltac sb_cases :=
  repeat match goal with
  | |- context [match ?x with _ => _ end] =>
      lazymatch x with
      | context [match _ with _ => _ end] => fail
      | _ => destruct x eqn:?; cbn -[Z.ltb Z.eqb Z.of_nat] in *
      end
  end.

(** Splitting boolean conjunctions among the hypotheses. *)
Ltac bool_hyps :=
  repeat match goal with
  | H : _ && _ = true |- _ => apply andb_true_iff in H as [? ?]
  | H : negb _ = true |- _ => apply negb_true_iff in H
  end.

(** *** Closing twice *)

(** Once the buffer is closing and its write timer is neither armed nor
    expired, both stay so whatever happens next: [send] fails before it
    touches the timer, and nothing else arms it. *)
Lemma closing_idle_stable e s s' :
  closing s = true -> writeTimer s = Idle ->
  step e s = Some s' ->
  closing s' = true /\ writeTimer s' = Idle.
Proof.
  intros Hc Ht. destruct s as [hdr w q qc cr cl t p rst once tout o].
  cbn in Hc, Ht. subst cl t.
  destruct e; sb_unfold; sb_cases; intros [= <-]; cbn; auto.
Qed.

Lemma closing_idle_run tr s s' :
  closing s = true -> writeTimer s = Idle ->
  run tr s = Some s' ->
  closing s' = true /\ writeTimer s' = Idle.
Proof.
  revert s. induction tr as [| e tr IH]; intros s Hc Ht; cbn.
  - intros [= <-]. auto.
  - destruct (step e s) as [s1 |] eqn:He; [| discriminate].
    destruct (closing_idle_stable _ _ _ Hc Ht He) as [Hc1 Ht1].
    by apply IH.
Qed.

(** C6 fails on the code for the send buffer. After a first [close] has
    returned, the timer idiom of a second [close] finds the write timer
    already stopped and its channel empty; the call waits there, and no
    later step of the loop, the closer, the timer or any caller ends the
    wait. *)
Theorem send_close_twice_blocks (hdr : list Byte.byte) (w : Z)
  (s0 : sendBuffer) (rst1 rst2 : bool) :
  newSendBuffer hdr w = Some s0 ->
  exists s1,
    run (one_close rst1) s0 = Some s1 /\
    at_pc s1 = Done /\
    step CloseStopTimer (close_request rst2 s1) = None /\
    forall tr s2,
      run tr (close_request rst2 s1) = Some s2 ->
      step CloseStopTimer s2 = None.
Proof.
  unfold newSendBuffer. destruct (w <? 0); [discriminate |].
  intros [= <-].
  assert (Hblock : forall s, closing s = true -> writeTimer s = Idle ->
            step CloseStopTimer s = None).
  { intros s _ Ht. cbn. unfold close_stop_timer. by rewrite Ht. }
  destruct rst1; eexists; (split; [vm_compute; reflexivity |]);
    (split; [reflexivity |]); (split; [reflexivity |]);
    intros tr s2 Hrun;
    apply closing_idle_run in Hrun as [Hc Ht]; try reflexivity;
    by apply Hblock.
Qed.

Lemma send_close_twice_blocks_witness :
  match newSendBuffer [Byte.x00; Byte.x00; Byte.x00; Byte.x07] 4 with
  | Some s0 =>
    exists s1,
      run (one_close false) s0 = Some s1 /\
      at_pc s1 = Done /\
      step CloseStopTimer (close_request false s1) = None /\
      forall tr s2,
        run tr (close_request false s1) = Some s2 ->
        step CloseStopTimer s2 = None
  | None => False
  end.
Proof.
  cbv beta iota delta [newSendBuffer Z.ltb Z.compare].
  exact (send_close_twice_blocks _ 4 _ false false eq_refl).
Defined.

(** *** The loop: what reaches the session writer *)

Lemma ctl_inv_step e s s' : ctl_inv s -> step e s = Some s' -> ctl_inv s'.
Proof.
  destruct s as [hdr w q qc cr cl t p rst once tout o]. unfold ctl_inv.
  destruct e; sb_unfold; sb_cases; intros H [= <-];
    cbn -[Z.ltb Z.eqb Z.of_nat] in *; bool_hyps;
    intuition congruence.
Qed.

Lemma frames_app l1 l2 : frames (l1 ++ l2) = frames l1 ++ frames l2.
Proof. apply omap_app. Qed.

(** Case analysis on a hypothesis [H : step e s = Some s']. *)
Ltac step_cases H :=
  unfold step, send, doSend, chan_send, close_request, close_stop_timer,
    close_wait, stop_and_drain, Stop, recvC, ret, on_recv, signalClose,
    seal, push_out, set_in, set_closeRequested, set_writeTimer, set_pc,
    set_sendRST, set_closeOnce, set_closeTimedOut, IsZero, Before in H;
  cbn -[Z.ltb Z.eqb Z.of_nat] in H;
  repeat match type of H with
  | context [match ?x with _ => _ end] =>
      lazymatch x with
      | context [match _ with _ => _ end] => fail
      | _ => destruct x eqn:?; cbn -[Z.ltb Z.eqb Z.of_nat] in H
      end
  end;
  try discriminate H; injection H as <-.

Section Sublists.
Context {A : Type}.
Implicit Types l k m : list A.

Lemma sub_drop l x k acc : l ++ x :: k `sublist_of` acc -> l ++ k `sublist_of` acc.
Proof.
  intros H. etrans; [| exact H].
  apply sublist_app; [done |]. by apply sublist_cons.
Qed.

Lemma sub_snoc l k m acc n :
  l ++ k ++ m `sublist_of` acc -> l ++ k ++ m ++ n `sublist_of` acc ++ n.
Proof.
  intros H. rewrite !app_assoc. apply sublist_app; [| done].
  by rewrite <- app_assoc.
Qed.

Lemma sub_snoc1 l acc n : l `sublist_of` acc -> l ++ n `sublist_of` acc ++ n.
Proof. intros H. by apply sublist_app. Qed.

Lemma eq_snoc l k m acc n :
  l ++ k ++ m = acc -> l ++ k ++ m ++ n = acc ++ n.
Proof. intros <-. by rewrite !app_assoc. Qed.

End Sublists.

Ltac data_fin fwd' rst' :=
  exists fwd', rst';
  rewrite ?app_nil_r, ?map_app, <- ?app_assoc; cbn [app map];
  rewrite ?app_nil_r in *;
  intuition (subst; try congruence; try done;
             eauto using sub_drop, sub_snoc, sub_snoc1, eq_snoc).

Lemma data_inv_step e s s' acc fwd rst :
  ctl_inv s -> data_inv s acc fwd rst -> step e s = Some s' ->
  exists fwd' rst', data_inv s' (acc ++ frames (accepted_by e s)) fwd' rst'.
Proof.
  destruct s as [hdr w q qc cr cl t p r once tout o].
  intros Hc Hd Hs.
  destruct e; step_cases Hs.
  all: unfold ctl_inv, data_inv, accepted_by, held, pending, wire, send, doSend, chan_send, IsZero, Before in *.
  all: cbn -[Z.ltb Z.eqb Z.of_nat] in *; bool_hyps; subst;
    repeat match goal with H : ?x = _ |- context [?x] => rewrite H end;
    rewrite ?app_nil_r, ?frames_app in *; cbn -[Z.ltb Z.eqb Z.of_nat] in *.
  all: destruct Hd as (Ho & Hr & Hsub & Hall & Hdone & Hleft).
  all: destruct Hc as (Hc1 & Hc2 & Hc3 & Hc4 & Hc5).
  all: try (destruct rst;
              [destruct Hr as [? ?]; [reflexivity |]; discriminate |]).
  all: try solve [data_fin fwd rst].
  all: try solve [data_fin fwd false].
  all: try solve [data_fin fwd true].
  all: try match goal with
       | |- context [_ ++ [?f ++ _]] => solve [data_fin (fwd ++ [f]) false]
       end.
Qed.

Lemma rst_inv_step e s s' :
  e <> CloseRequest false -> rst_inv s -> step e s = Some s' -> rst_inv s'.
Proof.
  destruct s as [hdr w q qc cr cl t p r once tout o].
  intros He Hi Hs. unfold rst_inv in *.
  destruct e; step_cases Hs; cbn in *; bool_hyps; subst;
    try solve [intuition congruence].
  all: match goal with
       | Hi : Some ?b <> Some false /\ _ |- _ =>
           destruct b; intuition congruence
       end.
Qed.

Lemma step_defaultHeader e s s' :
  step e s = Some s' -> defaultHeader s' = defaultHeader s.
Proof.
  destruct s as [hdr w q qc cr cl t p r once tout o].
  intros Hs. destruct e; step_cases Hs; reflexivity.
Qed.

Lemma run_defaultHeader tr s s' :
  run tr s = Some s' -> defaultHeader s' = defaultHeader s.
Proof.
  revert s. induction tr as [| e tr IH]; intros s; cbn.
  - by intros [= <-].
  - destruct (step e s) as [s1 |] eqn:He; [| discriminate].
    intros Hr. rewrite (IH _ Hr). by eapply step_defaultHeader.
Qed.

Lemma run_inv tr s s' acc fwd rst :
  ctl_inv s -> data_inv s acc fwd rst -> run tr s = Some s' ->
  ctl_inv s' /\
  exists fwd' rst', data_inv s' (acc ++ frames (accepted tr s)) fwd' rst'.
Proof.
  revert s acc fwd rst. induction tr as [| e tr IH]; intros s acc fwd rst Hc Hd; cbn.
  - intros [= <-]. split; [done |]. exists fwd, rst. by rewrite app_nil_r.
  - destruct (step e s) as [s1 |] eqn:He; [| discriminate].
    intros Hr.
    destruct (data_inv_step _ _ _ _ _ _ Hc Hd He) as (fwd1 & rst1 & Hd1).
    pose proof (ctl_inv_step _ _ _ Hc He) as Hc1.
    rewrite frames_app, app_assoc. by eapply IH.
Qed.

Lemma run_rst_inv tr s s' :
  all_rst tr -> rst_inv s -> run tr s = Some s' -> rst_inv s'.
Proof.
  revert s. induction tr as [| e tr IH]; intros s Hall Hi; cbn.
  - by intros [= <-].
  - destruct (step e s) as [s1 |] eqn:He; [| discriminate].
    apply IH.
    + intros b Hb. apply Hall. by right.
    + eapply rst_inv_step; [| done..].
      intros ->. specialize (Hall false (or_introl eq_refl)). discriminate.
Qed.

Lemma newSendBuffer_inv hdr w s0 :
  newSendBuffer hdr w = Some s0 ->
  defaultHeader s0 = hdr /\ ctl_inv s0 /\ data_inv s0 [] [] false /\ rst_inv s0.
Proof.
  unfold newSendBuffer. destruct (w <? 0); [discriminate |].
  intros [= <-]. unfold ctl_inv, data_inv, rst_inv, held, pending, wire. cbn.
  repeat split; try done; try congruence;
    solve [intros [? | ?]; discriminate | constructor].
Qed.

(** C2, as stated, fails: the frame handed to the session writer is the
    payload followed by the header, not the header followed by the
    payload. *)
Lemma data_frame_is_not_header_first :
  match newSendBuffer [Byte.x00; Byte.x00; Byte.x00; Byte.x07] 4 with
  | Some s0 =>
    exists s,
      run [CallSend (Some [Byte.x41]) 0 0 false; RecvIn; WindowAvailable;
           WriterReceives] s0 = Some s /\
      out s = [[Byte.x41] ++ defaultHeader s0] /\
      out s <> [defaultHeader s0 ++ [Byte.x41]]
  | None => False
  end.
Proof.
  vm_compute. eexists. split; [reflexivity |]. split; [reflexivity |].
  discriminate.
Qed.

(** C2, amended. Whatever the schedule, the frames the session writer has
    received are, in order, [payload ++ header] for payloads accepted by
    [send] (in the order of acceptance, nil ones and those dropped after the
    close timeout left out), with at most the RST frame after them. The
    header is the default header as stored: the loop does not touch its
    type byte. Each single write of a frame the loop holds appends exactly
    [frame ++ defaultHeader]. *)
Theorem data_frame_is_payload_then_header (hdr : list Byte.byte) (w : Z)
  (s0 : sendBuffer) (tr : list event) (s : sendBuffer) :
  newSendBuffer hdr w = Some s0 ->
  run tr s0 = Some s ->
  defaultHeader s = hdr /\
  (exists fwd (rst : bool),
     out s = map (fun payload : list Byte.byte => payload ++ hdr) fwd
             ++ (if rst then [withFrameType hdr frameTypeRST] else []) /\
     fwd `sublist_of` frames (accepted tr s0)) /\
  (forall frame, at_pc s = Write frame ->
     exists s', step WriterReceives s = Some s' /\
       out s' = out s ++ [frame ++ hdr]).
Proof.
  intros Hnew Hrun.
  destruct (newSendBuffer_inv _ _ _ Hnew) as (Hh & Hc & Hd & _).
  destruct (run_inv _ _ _ _ _ _ Hc Hd Hrun) as (_ & fwd & rst & Hd').
  pose proof (run_defaultHeader _ _ _ Hrun) as Hh'. rewrite Hh in Hh'.
  destruct Hd' as (Ho & _ & Hsub & _). cbn in Hsub.
  split; [done |]. split.
  - exists fwd, rst. split.
    + rewrite Ho, Hh'. reflexivity.
    + etrans; [| exact Hsub]. by apply sublist_inserts_r.
  - intros frame Hpc. cbn. rewrite Hpc. eexists. split; [reflexivity |].
    cbn. by rewrite Hh'.
Qed.

Lemma data_frame_is_payload_then_header_witness :
  match newSendBuffer [Byte.x00; Byte.x00; Byte.x00; Byte.x07] 4 with
  | Some s0 =>
    match
      run [CallSend (Some [Byte.x41]) 0 0 false; RecvIn; WindowAvailable] s0
    with
    | Some s =>
      exists s', step WriterReceives s = Some s' /\
        out s' = out s ++ [[Byte.x41; Byte.x00; Byte.x00; Byte.x00; Byte.x07]]
    | None => False
    end
  | None => False
  end.
Proof.
  cbv beta iota delta [newSendBuffer Z.ltb Z.compare].
  match goal with
  | |- match ?r with _ => _ end => destruct r as [s |] eqn:Hrun
  end; [| vm_compute in Hrun; discriminate Hrun].
  refine (proj2 (proj2 (data_frame_is_payload_then_header
             [Byte.x00; Byte.x00; Byte.x00; Byte.x07] 4 _ _ s eq_refl Hrun))
            [Byte.x41] _).
  vm_compute in Hrun. injection Hrun as <-. reflexivity.
Defined.

(** C7, as stated, fails: [close(true)] is requested and returns, the loop
    has terminated, and the session writer has received no RST frame: the
    writer was not ready before the close timeout fired, and [write] gave
    up. *)
Lemma rst_frame_can_be_dropped :
  match newSendBuffer [Byte.x00; Byte.x00; Byte.x00; Byte.x07] 4 with
  | Some s0 =>
    exists s,
      run [CloseRequest true; CloseStopTimer; RecvCloseRequested;
           CloserSeals; RecvIn; CloserTimesOut; RecvCloseTimedOut;
           CloseWait] s0 = Some s /\
      sendRST s = true /\ at_pc s = Done /\ out s = []
  | None => False
  end.
Proof.
  vm_compute. eexists. repeat split; reflexivity.
Qed.

(** C7, amended. The loop emits at most one RST frame, the default header
    with the type byte set to 2; it is the last frame the session writer
    receives from the loop, after the payload frames, which come in the
    order of acceptance; and the loop has terminated once it is out. When
    the loop has terminated and the close timeout has not fired, the writer
    has received every accepted payload frame, followed by the RST frame
    whenever the loop's [sendRST] is set, which is the case when every
    close request asked for it. A loop about to write the RST frame
    terminates with the frame written as soon as the writer takes it. *)
Theorem rst_frame_last_at_most_once (hdr : list Byte.byte) (w : Z)
  (s0 : sendBuffer) (tr : list event) (s : sendBuffer) :
  newSendBuffer hdr w = Some s0 ->
  run tr s0 = Some s ->
  (exists fwd (rst : bool),
     out s = map (fun payload : list Byte.byte => payload ++ hdr) fwd
             ++ (if rst then [withFrameType hdr frameTypeRST] else []) /\
     fwd `sublist_of` frames (accepted tr s0) /\
     (rst = true -> at_pc s = Done /\ sendRST s = true) /\
     (at_pc s = Done -> closeTimedOut s = false ->
      fwd = frames (accepted tr s0) /\
      (sendRST s = true -> rst = true) /\
      (all_rst tr -> rst = true))) /\
  (at_pc s = WriteRST ->
   exists s', step WriterReceives s = Some s' /\ at_pc s' = Done /\
     out s' = out s ++ [withFrameType hdr frameTypeRST]) /\
  (length hdr = 4%nat ->
   length (withFrameType hdr frameTypeRST) = 4%nat /\
   head (withFrameType hdr frameTypeRST) = Some Byte.x02).
Proof.
  intros Hnew Hrun.
  destruct (newSendBuffer_inv _ _ _ Hnew) as (Hh & Hc & Hd & Hi).
  destruct (run_inv _ _ _ _ _ _ Hc Hd Hrun) as (Hc' & fwd & rst & Hd').
  pose proof (run_defaultHeader _ _ _ Hrun) as Hh'. rewrite Hh in Hh'.
  destruct Hd' as (Ho & Hr & Hsub & Hall & Hdone & Hleft).
  destruct Hc' as (_ & _ & Honce & Hexit & _).
  cbn in Hsub, Hall. split; [| split].
  - exists fwd, rst. split; [by rewrite Ho, Hh' |]. split.
    { etrans; [| exact Hsub]. by apply sublist_inserts_r. }
    split; [done |]. intros Hpc Ht.
    assert (Hfwd : fwd = frames (accepted tr s0)).
    { rewrite <- (Hall Ht). unfold held, pending. rewrite Hpc.
      rewrite (Hleft (or_intror Hpc) Ht). cbn. by rewrite app_nil_r. }
    split; [done |]. split; [by auto |].
    intros Hreq. apply Hdone; [done | | done].
    apply (run_rst_inv _ _ _ Hreq Hi Hrun).
    apply Honce, Hexit. by right.
  - intros Hpc. cbn. rewrite Hpc. eexists. split; [reflexivity |].
    cbn. by rewrite Hh'.
  - intros Hlen. destruct hdr as [| x hdr]; [discriminate |].
    cbn in *. split; [lia | reflexivity].
Qed.

Lemma rst_frame_last_at_most_once_witness :
  match newSendBuffer [Byte.x00; Byte.x00; Byte.x00; Byte.x07] 4 with
  | Some s0 =>
    match
      run [CallSend (Some [Byte.x41]) 0 0 false; CloseRequest true;
           RecvCloseRequested; CloserSeals; RecvIn; WindowAvailable;
           WriterReceives; RecvIn] s0
    with
    | Some s =>
      exists s', step WriterReceives s = Some s' /\ at_pc s' = Done /\
        out s' = out s ++ [[Byte.x02; Byte.x00; Byte.x00; Byte.x07]]
    | None => False
    end
  | None => False
  end.
Proof.
  cbv beta iota delta [newSendBuffer Z.ltb Z.compare].
  match goal with
  | |- match ?r with _ => _ end => destruct r as [s |] eqn:Hrun
  end; [| vm_compute in Hrun; discriminate Hrun].
  refine (proj1 (proj2 (rst_frame_last_at_most_once
             [Byte.x00; Byte.x00; Byte.x00; Byte.x07] 4 _ _ s eq_refl Hrun)) _).
  vm_compute in Hrun. injection Hrun as <-. reflexivity.
Defined.

End SendFacts.

(** ** The receive buffer *)

Module ReceiveFacts.
Import ReceiveBuffer.

Lemma bump_succ k u : bump (S k) u = bump k (int64 (u + 1)).
Proof. unfold bump. by rewrite Nat.iter_succ_r. Qed.

Lemma bump_small k u :
  - 2 ^ 63 <= u -> u + Z.of_nat k < 2 ^ 63 -> bump k u = u + Z.of_nat k.
Proof.
  revert u. induction k as [| k IH]; intros u Hlo Hhi.
  - cbn. lia.
  - rewrite bump_succ, int64_small by lia. rewrite IH by lia. lia.
Qed.

Lemma onFrame_inl frame buf buf1 :
  onFrame frame buf = inl buf1 ->
  current buf1 = payload frame /\
  unacked buf1 = int64 (unacked buf + 1) /\
  in_q buf1 = in_q buf /\ in_closed buf1 = in_closed buf /\
  ack buf1 = ack buf /\ ackInterval buf1 = ackInterval buf /\
  defaultHeader buf1 = defaultHeader buf /\ windowSize buf1 = windowSize buf.
Proof.
  unfold onFrame, payload.
  destruct (poolable buf); cbn;
    match goal with |- context [if ?c then _ else _] => destruct c end;
    intros [= <-]; cbn; auto 10.
Qed.

Lemma onFrame_inr frame buf buf1 :
  onFrame frame buf = inr buf1 ->
  unacked buf1 = unacked buf /\
  ack buf1 = ack buf /\ ackInterval buf1 = ackInterval buf /\
  defaultHeader buf1 = defaultHeader buf.
Proof.
  unfold onFrame.
  destruct (poolable buf); cbn;
    match goal with |- context [if ?c then _ else _] => destruct c end;
    intros [= <-]; cbn; auto.
Qed.

Lemma last_payload_cons cur f fs :
  last_payload cur (f :: fs) = last_payload (payload f) fs.
Proof.
  unfold last_payload. rewrite last_cons.
  destruct (list.last fs); reflexivity.
Qed.

(** One turn of the loop that takes a frame, from the queue or from a
    wait, on top of what the remaining turns do. *)
Lemma loop_post_frame buf buf0 b data totalN waits waits' frame r :
  let n := length (current buf) in
  (n < b)%nat ->
  current buf0 = payload frame ->
  unacked buf0 = int64 (unacked buf + 1) ->
  ack buf0 = ack buf -> ackInterval buf0 = ackInterval buf ->
  defaultHeader buf0 = defaultHeader buf ->
  (in_q buf = frame :: in_q buf0 /\ waits' = waits) \/
  (in_q buf = [] /\ in_q buf0 = [] /\
   arrivals waits = frame :: arrivals waits') ->
  loop_post buf0 (b - n) (data ++ current buf) (totalN + Z.of_nat n) waits' r ->
  loop_post buf b data totalN waits r.
Proof.
  intros n Hnb Hcur Hun Hack Hint Hhdr Hfrom.
  destruct r as [| buf' | data' n' err buf']; cbn; [done | |].
  - intros (-> & -> & ->). done.
  - intros (qs & ws & Hq & Hws & Hdata & Hsuf & Hpre & Hlen & _ & Hn' & Hu
            & -> & -> & ->).
    rewrite Hcur in Hdata, Hsuf. rewrite Hun in Hu.
    pose proof (prefix_length _ _ Hpre) as Hmin.
    rewrite length_app in Hlen, Hn', Hmin. fold n in Hlen, Hn', Hmin.
    assert (Hpre' : data `prefix_of` data')
      by (etrans; [apply prefix_app_r; reflexivity | exact Hpre]).
    destruct Hfrom as [[Hin ->] | (Hin & Hin0 & Harr)].
    + exists (frame :: qs), ws. rewrite Hin, Hq.
      cbn [app length map concat].
      rewrite last_payload_cons, bump_succ, Hdata, <- !app_assoc.
      repeat split; try done; lia.
    + rewrite Hin0 in Hq. symmetry in Hq.
      apply app_eq_nil in Hq as [-> Hq'].
      exists [], (frame :: ws). rewrite Hin, Hq', Harr.
      cbn [app length map concat] in *.
      rewrite last_payload_cons, bump_succ, Hdata, <- !app_assoc.
      repeat split; try done; try lia.
      by apply prefix_cons.
Qed.

Lemma read_loop_post fuel buf b data totalN deadline now waits :
  loop_post buf b data totalN waits
    (read_loop fuel buf b data totalN deadline now waits).
Proof.
  revert buf b data totalN deadline now waits.
  induction fuel as [| fuel IH]; intros buf b data totalN deadline now waits;
    [exact I |].
  cbn [read_loop].
  set (n := Nat.min b (length (current buf))).
  destruct (Nat.eqb_spec n b) as [Hnb | Hnb].
  - (* the destination is full *)
    exists [], []. cbn. rewrite app_nil_r.
    repeat split; try done;
      rewrite ?length_app, ?length_take; fold n; try lia.
    + apply prefix_nil.
    + by rewrite <- app_assoc, take_drop.
    + unfold last_payload. cbn. apply suffix_drop.
    + by apply prefix_app_r.
  - (* [current] is exhausted *)
    assert (Hn : n = length (current buf)) by lia.
    assert (Hlt : (length (current buf) < b)%nat) by lia.
    assert (Htake : take n (current buf) = current buf)
      by (apply take_ge; lia).
    assert (Hdrop : drop n (current buf) = []) by (apply drop_ge; lia).
    rewrite Htake, Hdrop.
    assert (Hret : forall err buf',
              in_q buf = [] -> in_q buf' = [] -> current buf' = [] ->
              unacked buf' = unacked buf -> ack buf' = ack buf ->
              ackInterval buf' = ackInterval buf ->
              defaultHeader buf' = defaultHeader buf ->
              loop_post buf b data totalN waits
                (ReadReturns (data ++ current buf) (totalN + Z.of_nat n) err
                   buf')).
    { intros err buf' Hq Hq' Hc Hu Ha Hi Hh. exists [], []. cbn.
      rewrite Hq, Hq', Hc, !app_nil_r, length_app.
      repeat split; try done; try lia.
      - apply prefix_nil.
      - apply suffix_nil.
      - by apply prefix_app_r. }
    cbn [in_q set_current].
    destruct (in_q buf) as [| frame q] eqn:Hq.
    + cbn [in_closed set_current].
      destruct (in_closed buf); [by apply Hret |].
      destruct (_ >? 0); [by apply Hret |].
      destruct (_ && _); [by apply Hret |].
      destruct waits as [| w waits']; [exact I |].
      destruct (wakes w) as [| frame |] eqn:Hw.
      * by apply Hret.
      * destruct (onFrame frame _) as [buf0 | buf0] eqn:Hon.
        -- apply onFrame_inl in Hon as (? & ? & Hq0 & ? & ? & ? & ? & ?).
           cbn in Hq0. rewrite Hq in Hq0.
           eapply (loop_post_frame buf buf0); try done.
           ++ right. split; [done |]. split; [done |].
              unfold arrivals. cbn. by rewrite Hw.
           ++ rewrite <- Hn. apply IH.
        -- apply onFrame_inr in Hon as (? & ? & ? & ?). done.
      * apply Hret; try done; unfold close; cbn;
          by destruct (closed buf).
    + destruct (onFrame frame _) as [buf0 | buf0] eqn:Hon.
      * apply onFrame_inl in Hon as (? & ? & Hq0 & ? & ? & ? & ? & ?).
        cbn in Hq0.
        eapply (loop_post_frame buf buf0); try done.
        -- left. rewrite Hq, Hq0. done.
        -- rewrite <- Hn. apply IH.
      * apply onFrame_inr in Hon as (? & ? & ? & ?). done.
Qed.

Lemma ceil_tenth_spec w :
  ceil_tenth w = (w + 9) / 10 /\
  10 * (ceil_tenth w - 1) < w <= 10 * ceil_tenth w.
Proof.
  assert (H : ceil_tenth w = - (- w / 10)).
  { unfold ceil_tenth, Qceiling, Qfloor. cbn. by rewrite Z.mul_1_r. }
  rewrite H.
  pose proof (Z.div_mod (- w) 10 ltac:(lia)).
  pose proof (Z.mod_pos_bound (- w) 10 ltac:(lia)).
  pose proof (Z.div_mod (w + 9) 10 ltac:(lia)).
  pose proof (Z.mod_pos_bound (w + 9) 10 ltac:(lia)).
  lia.
Qed.

Ltac same_test :=
  match goal with
  | |- (if ?c then _ else _) = (if ?c then _ else _) => destruct c
  end.

(** The fuel [read] gives its loop is enough: more fuel changes nothing. *)
Lemma read_loop_fuel fuel1 fuel2 buf b data totalN deadline now waits :
  (length (in_q buf) + length waits < fuel1)%nat ->
  (length (in_q buf) + length waits < fuel2)%nat ->
  read_loop fuel1 buf b data totalN deadline now waits
  = read_loop fuel2 buf b data totalN deadline now waits.
Proof.
  revert fuel2 buf b data totalN deadline now waits.
  induction fuel1 as [| fuel1 IH];
    intros [| fuel2] buf b data totalN deadline now waits H1 H2; try lia.
  cbn [read_loop]. same_test; [done |]. cbn [in_q in_closed set_current].
  destruct (in_q buf) as [| frame q] eqn:Hq.
  - do 3 (same_test; [done |]).
    destruct waits as [| w waits]; [done |].
    destruct (wakes w); [done | | done].
    destruct (onFrame _ _) as [buf0 | buf0] eqn:Hon; [| done].
    apply onFrame_inl in Hon as (_ & _ & Hq0 & _). cbn in Hq0.
    apply IH; rewrite Hq0, Hq; cbn in *; lia.
  - destruct (onFrame _ _) as [buf0 | buf0] eqn:Hon; [| done].
    apply onFrame_inl in Hon as (_ & _ & Hq0 & _). cbn in Hq0.
    apply IH; rewrite Hq0; cbn in *; lia.
Qed.

(** With the deadline in the past the loop never reaches a wait. *)
Lemma read_loop_past fuel buf b data totalN deadline now waits :
  past deadline now = true ->
  (length (in_q buf) < fuel)%nat ->
  read_loop fuel buf b data totalN deadline now waits <> ReadBlocked /\
  read_loop fuel buf b data totalN deadline now waits
  = read_loop fuel buf b data totalN deadline now [].
Proof.
  unfold past. intros Hpast.
  revert buf b data totalN.
  induction fuel as [| fuel IH]; intros buf b data totalN Hfuel; [lia |].
  cbn [read_loop].
  match goal with |- context [if ?c then _ else _] => destruct c end;
    [done |].
  cbn [in_q in_closed set_current].
  destruct (in_q buf) as [| frame q] eqn:Hq.
  - destruct (in_closed buf); [done |].
    destruct (_ >? 0); [done |]. rewrite Hpast. done.
  - destruct (onFrame _ _) as [buf0 | buf0] eqn:Hon; [| done].
    apply onFrame_inl in Hon as (_ & _ & Hq0 & _). cbn in Hq0.
    apply IH. rewrite Hq0. cbn in Hfuel. lia.
Qed.

Lemma past_spec deadline now :
  deadline <> 0 -> deadline < now -> past deadline now = true.
Proof.
  intros Hnz Hlt. unfold past, IsZero, Before.
  destruct (Z.eqb_spec deadline 0); [done |].
  destruct (Z.ltb_spec deadline now); [done | lia].
Qed.

(** [close] on the receive buffer is idempotent. *)
Lemma receive_close_idempotent buf : close (close buf) = close buf.
Proof. unfold close. destruct (closed buf) eqn:H; cbn; by rewrite ?H. Qed.

Lemma read_returns buf b deadline now waits data n err buf' :
  read buf b deadline now waits = ReadReturns data n err buf' ->
  exists buf1,
    read_loop (S (length (in_q buf) + length waits)) buf b [] 0 deadline now
      waits = ReadReturns data n err buf1 /\
    buf' = flush_ack buf1.
Proof.
  unfold read.
  destruct (read_loop _ _ _ _ _ _ _ _) as [| buf1 | d1 n1 e1 buf1];
    try discriminate.
  intros [= <- <- <- <-]. by exists buf1.
Qed.

Lemma flush_ack_cases buf :
  (unacked buf >= ackInterval buf ->
   ack (flush_ack buf)
     = ack buf ++ [ackWithFrames (defaultHeader buf) (int16 (unacked buf))] /\
   unacked (flush_ack buf) = 0) /\
  (unacked buf < ackInterval buf ->
   ack (flush_ack buf) = ack buf /\ unacked (flush_ack buf) = unacked buf) /\
  ackInterval (flush_ack buf) = ackInterval buf /\
  current (flush_ack buf) = current buf /\
  in_q (flush_ack buf) = in_q buf.
Proof.
  unfold flush_ack.
  destruct (Z.geb_spec (unacked buf) (ackInterval buf)); cbn;
    repeat split; intros; try done; lia.
Qed.

(** C9, as stated, fails: the ACK frame carries the count converted to
    [int16]. With a window of 327680 frames the interval is 32768; after
    32767 frames have been read one at a time, reading one more pushes an
    ACK frame that carries -32768, while the count on return is 32768. *)
Lemma ack_count_wraps :
  match newReceiveBuffer [Byte.x00; Byte.x00; Byte.x00; Byte.x07] 327680 with
  | Some buf0 =>
    let frame : slice :=
      Some [Byte.x00; Byte.x00; Byte.x00; Byte.x07; Byte.x00; Byte.x01;
            Byte.x41] in
    let round buf :=
      match submit frame buf with
      | Some buf1 =>
        match read buf1 1 0 0 [] with
        | ReadReturns _ _ _ buf2 => buf2
        | _ => buf
        end
      | None => buf
      end in
    let buf := Pos.iter round buf0 32767 in
    ackInterval buf = 32768 /\ unacked buf = 32767 /\ ack buf = [] /\
    match submit frame buf with
    | Some buf1 =>
      match read_loop 2 buf1 1 [] 0 0 0 [], read buf1 1 0 0 [] with
      | ReadReturns _ _ _ buf2, ReadReturns _ _ _ buf' =>
        unacked buf2 = 32768 /\
        ack buf' =
          [ackWithFrames [Byte.x00; Byte.x00; Byte.x00; Byte.x07] (-32768)]
      | _, _ => False
      end
    | None => False
    end
  | None => False
  end.
Proof. vm_compute. repeat split; reflexivity. Qed.

(** C9, amended. The ack interval of a new buffer is the ceiling of a
    tenth of the window size. On return from [read], with [u] the unacked
    count the loop leaves: if [u] is at least the interval, exactly one ACK
    frame is pushed, carrying [u] converted to a signed 16-bit integer
    ([u] itself as long as it is below 2^15), and the counter is reset to
    zero; otherwise nothing is pushed and the counter stays at [u]. *)
Theorem ack_batching :
  (forall hdr w buf,
     newReceiveBuffer hdr w = Some buf ->
     ackInterval buf = (w + 9) / 10 /\
     10 * (ackInterval buf - 1) < w <= 10 * ackInterval buf) /\
  (forall buf b deadline now waits data n err buf',
     read buf b deadline now waits = ReadReturns data n err buf' ->
     exists buf1,
       read_loop (S (length (in_q buf) + length waits)) buf b [] 0 deadline
         now waits = ReadReturns data n err buf1 /\
       ackInterval buf' = ackInterval buf /\
       (unacked buf1 >= ackInterval buf ->
        ack buf' = ack buf
                   ++ [ackWithFrames (defaultHeader buf)
                         (int16 (unacked buf1))] /\
        unacked buf' = 0) /\
       (unacked buf1 < ackInterval buf ->
        ack buf' = ack buf /\ unacked buf' = unacked buf1) /\
       (- 2 ^ 15 <= unacked buf1 < 2 ^ 15 ->
        int16 (unacked buf1) = unacked buf1)).
Proof.
  split.
  - intros hdr w buf. unfold newReceiveBuffer.
    destruct (w <? 0); [discriminate |]. intros [= <-]. cbn.
    apply ceil_tenth_spec.
  - intros buf b deadline now waits data n err buf' Hread.
    apply read_returns in Hread as (buf1 & Hloop & ->).
    exists buf1. split; [done |].
    pose proof (read_loop_post (S (length (in_q buf) + length waits)) buf b
                  [] 0 deadline now waits) as Hpost.
    rewrite Hloop in Hpost.
    destruct Hpost as (qs & ws & _ & _ & _ & _ & _ & _ & _ & _ & _ & Ha & Hi
                       & Hh).
    destruct (flush_ack_cases buf1) as (Hge & Hlt & Hint & _).
    rewrite <- Hi, <- Ha, <- Hh.
    repeat split; try tauto; try (intros; by apply int16_small).
Qed.

Lemma ack_batching_witness :
  match newReceiveBuffer [Byte.x00; Byte.x00; Byte.x00; Byte.x07] 25 with
  | Some buf =>
    (ackInterval buf = 3 /\
     10 * (ackInterval buf - 1) < 25 <= 10 * ackInterval buf) /\
    match read buf 0 0 0 [] with
    | ReadReturns data n err buf' =>
      exists buf1,
        read_loop (S (length (in_q buf) + length (@nil wait))) buf 0 [] 0 0 0 []
          = ReadReturns data n err buf1 /\
        ackInterval buf' = ackInterval buf /\
        (unacked buf1 >= ackInterval buf ->
         ack buf' = ack buf
                    ++ [ackWithFrames (defaultHeader buf)
                          (int16 (unacked buf1))] /\
         unacked buf' = 0) /\
        (unacked buf1 < ackInterval buf ->
         ack buf' = ack buf /\ unacked buf' = unacked buf1) /\
        (- 2 ^ 15 <= unacked buf1 < 2 ^ 15 ->
         int16 (unacked buf1) = unacked buf1)
    | _ => False
    end
  | None => False
  end.
Proof.
  cbv beta iota delta [newReceiveBuffer Z.ltb Z.compare].
  split.
  - exact (proj1 ack_batching [Byte.x00; Byte.x00; Byte.x00; Byte.x07] 25 _
             eq_refl).
  - match goal with
    | |- match ?r with _ => _ end =>
        destruct r as [| ? | data n err buf'] eqn:Hread
    end; try (vm_compute in Hread; discriminate Hread).
    exact (proj2 ack_batching _ _ _ _ _ _ _ _ _ Hread).
Defined.

(** C5, as stated, fails: [read] takes the only queued frame (two payload
    bytes), copies one byte, and on return pushes an ACK frame counting the
    frame, of which one byte is still held as [current]. *)
Lemma ack_counts_partly_read_frame :
  match newReceiveBuffer [Byte.x00; Byte.x00; Byte.x00; Byte.x07] 4 with
  | Some buf0 =>
    match
      submit (Some [Byte.x00; Byte.x00; Byte.x00; Byte.x07; Byte.x00;
                    Byte.x02; Byte.x41; Byte.x42]) buf0
    with
    | Some buf =>
      exists buf',
        read buf 1 0 0 [] = ReadReturns [Byte.x41] 1 None buf' /\
        ack buf' =
          [ackWithFrames [Byte.x00; Byte.x00; Byte.x00; Byte.x07] 1] /\
        current buf' = [Byte.x42]
    | None => False
    end
  | None => False
  end.
Proof. vm_compute. eexists. repeat split; reflexivity. Qed.

(** C5, amended. The unacked counter counts the frames [read] has taken
    off the in-queue (or been handed while waiting), one per [onFrame].
    [read] takes a frame only when the payload before it has been copied
    out in full, so the bytes delivered followed by what is left in
    [current] are the old [current] followed by the payloads of the frames
    taken, and what is left in [current] is a tail of the payload of the
    last frame taken. The ACK pushed on return thus counts frames that have
    been fully delivered, except possibly the last one taken, which may
    still be partly held as the current payload. *)
Theorem ack_counts_frames_taken (buf : receiveBuffer) (b : nat)
  (deadline now : Time) (waits : list wait) (data : list Byte.byte) (n : Z)
  (err : option error) (buf' : receiveBuffer) :
  read buf b deadline now waits = ReadReturns data n err buf' ->
  exists qs ws : list slice,
    let fs := qs ++ ws in
    let u := bump (length fs) (unacked buf) in
    in_q buf = qs ++ in_q buf' /\
    ws `prefix_of` arrivals waits /\
    data ++ current buf' = current buf ++ concat (map payload fs) /\
    current buf' `suffix_of` last_payload (current buf) fs /\
    n = Z.of_nat (length data) /\
    (u >= ackInterval buf ->
     ack buf' = ack buf ++ [ackWithFrames (defaultHeader buf) (int16 u)] /\
     unacked buf' = 0) /\
    (u < ackInterval buf -> ack buf' = ack buf /\ unacked buf' = u) /\
    (- 2 ^ 63 <= unacked buf -> unacked buf + Z.of_nat (length fs) < 2 ^ 63 ->
     u = unacked buf + Z.of_nat (length fs)).
Proof.
  intros Hread. apply read_returns in Hread as (buf1 & Hloop & ->).
  pose proof (read_loop_post (S (length (in_q buf) + length waits)) buf b
                [] 0 deadline now waits) as Hpost.
  rewrite Hloop in Hpost.
  destruct Hpost as (qs & ws & Hq & Hws & Hdata & Hsuf & _ & _ & _ & Hn & Hu
                     & Ha & Hi & Hh).
  destruct (flush_ack_cases buf1) as (Hge & Hlt & _ & Hcur & Hin).
  exists qs, ws. cbn zeta. rewrite Hcur, Hin, <- Hu, <- Hi, <- Ha, <- Hh.
  repeat split; try tauto.
  - cbn in Hn. lia.
  - intros. subst. rewrite Hu. by apply bump_small.
Qed.

Lemma ack_counts_frames_taken_witness :
  match newReceiveBuffer [Byte.x00; Byte.x00; Byte.x00; Byte.x07] 4 with
  | Some buf0 =>
    match
      submit (Some [Byte.x00; Byte.x00; Byte.x00; Byte.x07; Byte.x00;
                    Byte.x02; Byte.x41; Byte.x42]) buf0
    with
    | Some buf =>
      match read buf 1 0 0 [] with
      | ReadReturns data n err buf' =>
        exists qs ws : list slice,
          let fs := qs ++ ws in
          let u := bump (length fs) (unacked buf) in
          in_q buf = qs ++ in_q buf' /\
          ws `prefix_of` arrivals [] /\
          data ++ current buf' = current buf ++ concat (map payload fs) /\
          current buf' `suffix_of` last_payload (current buf) fs /\
          n = Z.of_nat (length data) /\
          (u >= ackInterval buf ->
           ack buf' = ack buf ++ [ackWithFrames (defaultHeader buf) (int16 u)] /\
           unacked buf' = 0) /\
          (u < ackInterval buf -> ack buf' = ack buf /\ unacked buf' = u) /\
          (- 2 ^ 63 <= unacked buf ->
           unacked buf + Z.of_nat (length fs) < 2 ^ 63 ->
           u = unacked buf + Z.of_nat (length fs))
      | _ => False
      end
    | None => False
    end
  | None => False
  end.
Proof.
  cbv beta iota delta [newReceiveBuffer Z.ltb Z.compare].
  match goal with
  | |- match ?r with _ => _ end => set (o := r); vm_compute in o; subst o
  end.
  cbv beta iota.
  match goal with
  | |- match ?r with _ => _ end =>
      destruct r as [| ? | data n err buf'] eqn:Hread
  end; try (vm_compute in Hread; discriminate Hread).
  exact (ack_counts_frames_taken _ _ _ _ _ _ _ _ _ Hread).
Defined.

(** C3, as stated, fails for [read]: with a deadline in the past, bytes
    that are queued are still delivered, with a nil error; and when
    nothing is queued the call returns zero bytes and a nil error. *)
Lemma past_deadline_read_is_not_a_timeout :
  match newReceiveBuffer [Byte.x00; Byte.x00; Byte.x00; Byte.x07] 25 with
  | Some buf0 =>
    (exists buf', read buf0 1 5 10 [] = ReadReturns [] 0 None buf') /\
    match
      submit (Some [Byte.x00; Byte.x00; Byte.x00; Byte.x07; Byte.x00;
                    Byte.x01; Byte.x41]) buf0
    with
    | Some buf =>
      exists buf', read buf 1 5 10 [] = ReadReturns [Byte.x41] 1 None buf'
    | None => False
    end
  | None => False
  end.
Proof. vm_compute. split; eexists; reflexivity. Qed.

(** C3, amended. [send] on a buffer that is not closing, given a non-zero
    deadline strictly in the past, returns at once with zero bytes and
    [ErrTimeout] and leaves the buffer as it is. [read] given such a
    deadline never waits, whatever the schedule: when nothing is buffered
    or queued and the queue is open it returns zero bytes at once and takes
    nothing; when bytes are buffered it returns at least one of them, as
    many as the destination and the buffered payload allow. *)
Theorem past_deadline_returns_at_once (deadline now : Time) :
  deadline <> 0 -> deadline < now ->
  (forall s b expired,
     SendBuffer.closing s = false ->
     SendBuffer.send s b deadline now expired
     = SendBuffer.SendReturns 0 (Some ErrTimeout) s) /\
  (forall buf b waits,
     read buf b deadline now waits <> ReadBlocked /\
     read buf b deadline now waits = read buf b deadline now [] /\
     (current buf = [] -> in_q buf = [] -> in_closed buf = false ->
      exists err,
        read buf b deadline now waits = ReadReturns [] 0 err (flush_ack buf)) /\
     (forall data n err buf',
        read buf b deadline now waits = ReadReturns data n err buf' ->
        n = Z.of_nat (length data) /\
        (Nat.min b (length (current buf)) <= length data)%nat /\
        take (length (current buf)) data = take b (current buf))).
Proof.
  intros Hnz Hlt. pose proof (past_spec _ _ Hnz Hlt) as Hpast. split.
  - intros s b expired Hc. unfold SendBuffer.send, SendBuffer.doSend.
    rewrite Hc. unfold past in Hpast.
    destruct (IsZero deadline); [discriminate |].
    cbn in Hpast. by rewrite Hpast.
  - intros buf b waits.
    assert (Hsame : read buf b deadline now waits = read buf b deadline now []).
    { unfold read.
      rewrite (proj2 (read_loop_past (S (length (in_q buf) + length waits))
                        buf b [] 0 deadline now waits Hpast ltac:(lia))).
      rewrite (read_loop_fuel _ (S (length (in_q buf) + length (@nil wait))));
        cbn; try lia. done. }
    split; [| split; [done | split]].
    + unfold read.
      destruct (read_loop_past (S (length (in_q buf) + length waits)) buf b
                  [] 0 deadline now waits Hpast ltac:(lia)) as [Hnb _].
      destruct (read_loop _ _ _ _ _ _ _ _); done.
    + intros Hcur Hq Hopen. unfold read. rewrite Hq. cbn [length Nat.add].
      cbn [read_loop]. rewrite Hcur. cbn [length drop take app].
      rewrite Nat.min_0_r.
      assert (Hbuf : set_current [] buf = buf)
        by (destruct buf; cbn in *; by subst).
      rewrite drop_0, take_0, Hbuf. change (0 + Z.of_nat 0) with 0.
      destruct (0 =? b)%nat; [by eexists |].
      rewrite Hq, Hopen. change (0 >? 0) with false. cbv iota.
      fold (past deadline now). rewrite Hpast. by eexists.
    + intros data n err buf' Hread.
      apply read_returns in Hread as (buf1 & Hloop & ->).
      pose proof (read_loop_post (S (length (in_q buf) + length waits)) buf b
                    [] 0 deadline now waits) as Hpost.
      rewrite Hloop in Hpost.
      destruct Hpost as (qs & ws & _ & _ & Hdata & _ & _ & Hlen & Hmin & Hn & _).
      cbn in Hdata, Hn, Hmin, Hlen.
      split; [lia |]. split; [done |].
      set (m := Nat.min b (length (current buf))) in *.
      assert (Hm : take m data = take m (current buf)).
      { rewrite <- (take_app_le data (current buf1)) by lia.
        rewrite Hdata. apply take_app_le. lia. }
      destruct (Nat.le_gt_cases (length (current buf)) b) as [Hle | Hgt].
      * replace m with (length (current buf)) in Hm by lia.
        rewrite Hm. rewrite !take_ge by lia. done.
      * replace m with b in Hm by lia.
        rewrite <- Hm. rewrite !take_ge by lia. done.
Qed.

Lemma past_deadline_returns_at_once_witness :
  match newReceiveBuffer [Byte.x00; Byte.x00; Byte.x00; Byte.x07] 25,
        SendBuffer.newSendBuffer [Byte.x00; Byte.x00; Byte.x00; Byte.x07] 25
  with
  | Some buf, Some s =>
    SendBuffer.send s (Some [Byte.x41]) 5 10 false
    = SendBuffer.SendReturns 0 (Some ErrTimeout) s /\
    read buf 1 5 10 [{| wakes := TimerFires; clock := 11 |}] <> ReadBlocked /\
    exists err,
      read buf 1 5 10 [{| wakes := TimerFires; clock := 11 |}]
      = ReadReturns [] 0 err (flush_ack buf)
  | _, _ => False
  end.
Proof.
  cbv beta iota delta [newReceiveBuffer SendBuffer.newSendBuffer Z.ltb
                         Z.compare].
  assert (H5 : (5 : Z) <> 0) by discriminate.
  assert (H10 : (5 : Z) < 10) by reflexivity.
  destruct (past_deadline_returns_at_once 5 10 H5 H10) as [Hsend Hread].
  split; [apply Hsend; reflexivity |].
  match goal with
  | |- read ?buf ?b _ _ ?waits <> _ /\ _ =>
      destruct (Hread buf b waits) as (Hnb & _ & Hzero & _)
  end.
  split; [exact Hnb |]. apply Hzero; reflexivity.
Defined.
End ReceiveFacts.

(** ** More on the dialer *)

Module DialerLaws.
Import Dialer.

Lemma StreamDialer_ids_ok w m : ids_ok (StreamDialer w m).
Proof.
  unfold ids_ok, StreamDialer, maxID. cbn. rewrite Z.gtb_ltb.
  destruct (Z.leb_spec m 0), (Z.ltb_spec (2 ^ 24 - 1) m); cbn; lia.
Qed.

Lemma startSession_counter d h r d' :
  startSession d h = (r, d') ->
  id d' = id d /\ maxStreamPerConn d' = maxStreamPerConn d /\
  windowSize d' = windowSize d /\
  match r with
  | inl s => current d' = Some s /\ mx d' = mx d
  | inr _ => current d' = current d
  end.
Proof.
  unfold startSession.
  destruct (doDial h); [| by intros [= <- <-]].
  destruct (newAESSecret h); [by intros [= <- <-] |].
  destruct (newSendIV h); [by intros [= <- <-] |].
  destruct (newRecvIV h); [by intros [= <- <-] |].
  destruct (buildClientInitMsg h); [by intros [= <- <-] |].
  destruct (newDecryptCipher h); [by intros [= <- <-] |].
  destruct (newEncryptCipher h); by intros [= <- <-].
Qed.

(** What a call of [dial] that returns does to the dialer, read off the
    code once and for all. *)
Lemma dial_returned d h r started d' :
  dial d h = Returned r started d' ->
  mx d = false /\
  maxStreamPerConn d' = maxStreamPerConn d /\
  windowSize d' = windowSize d /\
  let i := if id d >? maxStreamPerConn d then 0 else id d in
  started = (match current d with None => true | Some _ => false end
             || (id d >? maxStreamPerConn d)) /\
  match r with
  | inl st =>
    st_id st = i /\ id d' = uint32 (i + 1) /\ mx d' = false /\
    current d' = Some (st_session st) /\
    (started = false -> current d = Some (st_session st))
  | inr _ => started = true /\ id d' = i /\ current d' = current d
  end.
Proof.
  destruct d as [w m cur i l]. unfold dial. cbn.
  destruct l; [discriminate |].
  destruct (i >? m) eqn:Hi, cur as [cur |]; cbn;
    try match goal with
    | |- context [startSession ?x h] =>
        destruct (startSession x h) as [[s | err] d1] eqn:Hs;
        apply startSession_counter in Hs as (? & ? & ? & Hr); cbn in *
    end;
    intros [= <- <- <-]; cbn; intuition congruence.
Qed.

Lemma dial_ids_ok d h r started d' :
  ids_ok d -> dial d h = Returned r started d' ->
  ids_ok d' /\
  forall st, r = inl st ->
    0 <= st_id st <= maxStreamPerConn d /\ st_id st <= maxID.
Proof.
  intros [Hid Hmax] Hdial.
  apply dial_returned in Hdial as (_ & Hm & _ & Hstart & Hr).
  cbn zeta in *. unfold ids_ok. rewrite Hm.
  set (i := if id d >? maxStreamPerConn d then 0 else id d) in *.
  assert (Hi : 0 <= i <= maxStreamPerConn d).
  { subst i. rewrite Z.gtb_ltb.
    destruct (Z.ltb_spec (maxStreamPerConn d) (id d)); lia. }
  destruct r as [st | err].
  - destruct Hr as (Hst & Hid' & _).
    unfold uint32 in Hid'.
    rewrite Z.mod_small in Hid' by (unfold maxID in *; lia).
    split; [lia |]. intros st' [= <-]. lia.
  - destruct Hr as (_ & Hid' & _).
    split; [lia |]. intros st' [=].
Qed.

(** X1. A dialer made by [StreamDialer] never hands out a stream id above
    the configured maximum, which is itself at most 2^24 - 1: the counter
    invariant holds initially, every returning [dial] keeps it and returns
    an id between 0 and the maximum, and [sessionClosed] keeps it. *)
Theorem stream_ids_within_maximum :
  (forall w m, ids_ok (StreamDialer w m)) /\
  (forall d h r started d',
     ids_ok d -> dial d h = Returned r started d' ->
     ids_ok d' /\
     forall st, r = inl st ->
       0 <= st_id st <= maxStreamPerConn d /\ st_id st <= maxID) /\
  (forall d s d', ids_ok d -> sessionClosed d s = Some d' -> ids_ok d').
Proof.
  split; [exact StreamDialer_ids_ok | split].
  - exact dial_ids_ok.
  - intros d s d' Hok. unfold sessionClosed.
    destruct (mx d); [discriminate |].
    destruct (current d) as [c |]; [destruct (session_eqb c s) |];
      intros [= <-]; exact Hok.
Qed.

Lemma stream_ids_within_maximum_witness :
  exists d',
    dial (StreamDialer 25 2) (handshake_ok 1%nat)
    = Returned (inl {| st_session := {| s_conn := 1%nat; s_windowSize := 25 |};
                       st_id := 0 |}) true d' /\
    ids_ok d' /\
    0 <= 0 <= maxStreamPerConn (StreamDialer 25 2).
Proof.
  eexists. split; [reflexivity |].
  destruct (proj1 (proj2 stream_ids_within_maximum) (StreamDialer 25 2)
              (handshake_ok 1%nat) _ _ _
              (proj1 stream_ids_within_maximum 25 2) eq_refl) as [Hok Hst].
  split; [exact Hok |].
  exact (proj1 (Hst _ eq_refl)).
Defined.

(** X2. Within one session the stream ids are consecutive: when [dial]
    returns a stream and the next [dial] returns one without starting a
    session, the second stream is on the same session and its id is the
    first one's plus one. *)
Theorem consecutive_dials_consecutive_ids (d : dialer) (h h' : handshake)
  (st1 st2 : stream) (started : bool) (d1 d2 : dialer) :
  ids_ok d ->
  dial d h = Returned (inl st1) started d1 ->
  dial d1 h' = Returned (inl st2) false d2 ->
  st_session st2 = st_session st1 /\ st_id st2 = st_id st1 + 1.
Proof.
  intros Hok H1 H2.
  destruct (dial_ids_ok _ _ _ _ _ Hok H1) as [[Hid1 Hmax1] Hst1].
  destruct (Hst1 _ eq_refl) as [Hb1 Hb1'].
  apply dial_returned in H1 as (_ & Hm1 & _ & _ & Hi1 & Hid & _ & Hcur1 & _).
  apply dial_returned in H2 as (_ & _ & _ & Hs2 & Hi2 & _ & _ & _ & Hcur2).
  cbn zeta in *. specialize (Hcur2 eq_refl).
  rewrite Hcur1 in Hcur2, Hs2. injection Hcur2 as Hsess.
  split; [done |].
  cbn in Hs2. symmetry in Hs2. rewrite Hs2 in Hi2. rewrite Hi2, Hid.
  unfold uint32. rewrite Z.mod_small by (unfold maxID in *; lia).
  rewrite Hi1. reflexivity.
Qed.

Lemma consecutive_dials_consecutive_ids_witness :
  exists st1 st2 d1 d2,
    dial (StreamDialer 25 2) (handshake_ok 1%nat) = Returned (inl st1) true d1 /\
    dial d1 (handshake_ok 2%nat) = Returned (inl st2) false d2 /\
    st_session st2 = st_session st1 /\ st_id st2 = st_id st1 + 1.
Proof.
  do 4 eexists. split; [reflexivity |]. split; [reflexivity |].
  exact (consecutive_dials_consecutive_ids (StreamDialer 25 2)
           (handshake_ok 1%nat) (handshake_ok 2%nat) _ _ _ _ _
           (StreamDialer_ids_ok 25 2) eq_refl eq_refl).
Defined.

Lemma dial_free_returns d h : mx d = false -> dial d h <> Blocked.
Proof.
  destruct d as [w m cur i l]. cbn. intros ->. unfold dial. cbn.
  destruct (i >? m), cur as [cur |]; cbn;
    try match goal with
    | |- context [startSession ?x h] =>
        destruct (startSession x h) as [[s | err] d1]
    end; done.
Qed.

(** X3. The connector is consulted exactly when a new session is needed.
    While the current session is usable the result of [dial] does not
    depend on the connector; when a session is needed and the connector
    fails, [dial] returns the connector's own error, gives the mutex back
    and keeps the current-session slot as it was. *)
Theorem connector_only_when_needed (d : dialer) :
  mx d = false ->
  (needs_session d = false ->
   forall h h', dial d h = dial d h') /\
  (needs_session d = true ->
   forall h e, doDial h = inr e ->
     exists d',
       dial d h = Returned (inr (ConnectorError e)) true d' /\
       mx d' = false /\ current d' = current d /\
       forall h', dial d' h' <> Blocked).
Proof.
  intros Hmx. split.
  - destruct d as [w m cur i l]. unfold needs_session. cbn in *. subst l.
    destruct cur as [cur |]; [| discriminate]. intros Hi h h'.
    unfold dial. cbn. by rewrite Hi.
  - intros Hneed h e He.
    assert (Hd : exists d',
               dial d h = Returned (inr (ConnectorError e)) true d' /\
               mx d' = false /\ current d' = current d).
    { destruct d as [w m cur i l]. unfold needs_session in Hneed.
      cbn in *. subst l. unfold dial, startSession. cbn.
      destruct (i >? m), cur as [cur |]; try discriminate Hneed;
        cbn; rewrite He; cbn; eexists; repeat split. }
    destruct Hd as (d' & Hdial & Hmx' & Hcur).
    exists d'. repeat split; try done.
    intros h'. by apply dial_free_returns.
Qed.

Lemma connector_only_when_needed_witness :
  (forall h h',
     dial {| windowSize := 25; maxStreamPerConn := 2;
             current := Some {| s_conn := 1%nat; s_windowSize := 25 |};
             id := 1; mx := false |} h
     = dial {| windowSize := 25; maxStreamPerConn := 2;
               current := Some {| s_conn := 1%nat; s_windowSize := 25 |};
               id := 1; mx := false |} h') /\
  exists d',
    dial (StreamDialer 25 2)
      {| doDial := inr 7%nat; newAESSecret := None; newSendIV := None;
         newRecvIV := None; buildClientInitMsg := None;
         newDecryptCipher := None; newEncryptCipher := None |}
    = Returned (inr (ConnectorError 7)) true d' /\
    mx d' = false /\ current d' = current (StreamDialer 25 2) /\
    forall h', dial d' h' <> Blocked.
Proof.
  split.
  - exact (proj1 (connector_only_when_needed
                    {| windowSize := 25; maxStreamPerConn := 2;
                       current := Some {| s_conn := 1%nat;
                                          s_windowSize := 25 |};
                       id := 1; mx := false |} eq_refl) eq_refl).
  - exact (proj2 (connector_only_when_needed (StreamDialer 25 2) eq_refl)
             eq_refl
             {| doDial := inr 7%nat; newAESSecret := None; newSendIV := None;
                newRecvIV := None; buildClientInitMsg := None;
                newDecryptCipher := None; newEncryptCipher := None |}
             7%nat eq_refl).
Defined.

(** X4. [dial] resets the id counter before it knows that the new session
    exists. When the ids of the current session are exhausted and the
    connector fails, the dialer keeps the exhausted session with the
    counter at 0, and the next [dial] hands out id 0 on that same session
    without asking the connector. *)
Theorem failed_rotation_reuses_session (d : dialer) (s : session)
  (h : handshake) (e : nat) :
  mx d = false ->
  current d = Some s ->
  0 <= maxStreamPerConn d < id d ->
  doDial h = inr e ->
  exists d',
    dial d h = Returned (inr (ConnectorError e)) true d' /\
    current d' = Some s /\ id d' = 0 /\
    forall h', exists d'',
      dial d' h' = Returned (inl {| st_session := s; st_id := 0 |}) false d''.
Proof.
  destruct d as [w m cur i l]. cbn. intros -> -> [Hm Hi] He.
  unfold dial, startSession. cbn.
  assert (Hgt : (i >? m) = true) by (apply Z.gtb_gt; lia).
  rewrite Hgt. cbn. rewrite He. cbn.
  eexists. split; [reflexivity |]. cbn. split; [done |]. split; [done |].
  intros h'. unfold dial. cbn.
  assert (Hle : (0 >? m) = false).
  { rewrite Z.gtb_ltb. apply Z.ltb_ge. lia. }
  rewrite Hle. cbn. eexists. reflexivity.
Qed.

Lemma failed_rotation_reuses_session_witness :
  exists d',
    dial {| windowSize := 25; maxStreamPerConn := 2;
            current := Some {| s_conn := 1%nat; s_windowSize := 25 |};
            id := 3; mx := false |}
      {| doDial := inr 7%nat; newAESSecret := None; newSendIV := None;
         newRecvIV := None; buildClientInitMsg := None;
         newDecryptCipher := None; newEncryptCipher := None |}
    = Returned (inr (ConnectorError 7)) true d' /\
    current d' = Some {| s_conn := 1%nat; s_windowSize := 25 |} /\
    id d' = 0 /\
    forall h', exists d'',
      dial d' h'
      = Returned (inl {| st_session := {| s_conn := 1%nat; s_windowSize := 25 |};
                         st_id := 0 |}) false d''.
Proof.
  apply failed_rotation_reuses_session;
    [reflexivity | reflexivity | cbn; lia | reflexivity].
Defined.



End DialerLaws.

(** ** More on the send buffer *)

Module SendLaws.
Import SendBuffer SendFacts.

(** X6. Back-pressure: whatever the schedule, the in-queue of a buffer
    made by [newSendBuffer] never holds more than [windowSize] payloads. *)
Theorem in_queue_bounded (hdr : list Byte.byte) (w : Z) (s0 : sendBuffer)
  (tr : list event) (s : sendBuffer) :
  newSendBuffer hdr w = Some s0 ->
  run tr s0 = Some s ->
  windowSize s = w /\ 0 <= w /\ Z.of_nat (length (in_q s)) <= w.
Proof.
  intros Hnew Hrun.
  assert (H0 : windowSize s0 = w /\ 0 <= w /\ Z.of_nat (length (in_q s0)) <= w).
  { revert Hnew. unfold newSendBuffer.
    destruct (Z.ltb_spec w 0); [discriminate |]. intros [= <-]. cbn. lia. }
  clear Hnew. revert s0 H0 Hrun.
  induction tr as [| e tr IH]; intros s0 H0; cbn.
  - by intros [= <-].
  - destruct (step e s0) as [s1 |] eqn:He; [| discriminate].
    apply IH. clear IH.
    destruct s0 as [h w0 q qc cr cl t p r once tout o].
    cbn in H0. destruct H0 as (-> & Hw & Hq).
    destruct e; step_cases He; cbn -[Z.of_nat];
      rewrite ?length_app; cbn [length] in *;
      repeat match goal with
      | H : (_ <? _) = true |- _ => apply Z.ltb_lt in H
      | H : (_ <? _) = false |- _ => apply Z.ltb_ge in H
      end; lia.
Qed.

Lemma in_queue_bounded_witness :
  match newSendBuffer [Byte.x00; Byte.x00; Byte.x00; Byte.x07] 1 with
  | Some s0 =>
    match run [CallSend (Some [Byte.x41]) 0 0 false] s0 with
    | Some s => windowSize s = 1 /\ 0 <= 1 /\ Z.of_nat (length (in_q s)) <= 1
    | None => False
    end
  | None => False
  end.
Proof.
  cbv beta iota delta [newSendBuffer Z.ltb Z.compare].
  match goal with
  | |- match ?r with _ => _ end => destruct r as [s |] eqn:Hrun
  end; [| vm_compute in Hrun; discriminate Hrun].
  exact (in_queue_bounded [Byte.x00; Byte.x00; Byte.x00; Byte.x07] 1 _ _ s
           eq_refl Hrun).
Defined.

Lemma sealed_step e s s1 :
  closing s = true -> step e s = Some s1 ->
  accepted_by e s = [] /\ closing s1 = true /\
  in_q s1 `suffix_of` in_q s.
Proof.
  destruct s as [h w q qc cr cl t p r once tout o]. cbn. intros -> He.
  unfold accepted_by, send, doSend. cbn.
  destruct e; step_cases He; cbn; repeat split; try done;
    by apply suffix_cons_r.
Qed.

(** X7. Once the closer has set [closing], the buffer accepts nothing any
    more: along every later schedule no payload is accepted by [send], the
    flag stays set, and the in-queue only shrinks. *)
Theorem sealed_accepts_nothing (s : sendBuffer) (tr : list event)
  (s' : sendBuffer) :
  closing s = true ->
  run tr s = Some s' ->
  accepted tr s = [] /\ closing s' = true /\ in_q s' `suffix_of` in_q s.
Proof.
  revert s. induction tr as [| e tr IH]; intros s Hc; cbn.
  - intros [= <-]. done.
  - destruct (step e s) as [s1 |] eqn:He; [| discriminate]. intros Hrun.
    destruct (sealed_step _ _ _ Hc He) as (Hacc & Hc1 & Hsuf).
    destruct (IH _ Hc1 Hrun) as (Hacc' & Hc' & Hsuf').
    rewrite Hacc, Hacc'. repeat split; try done. by etrans.
Qed.

Lemma sealed_accepts_nothing_witness :
  match newSendBuffer [Byte.x00; Byte.x00; Byte.x00; Byte.x07] 4 with
  | Some s0 =>
    match
      run [CallSend (Some [Byte.x41]) 0 0 false; CloseRequest false;
           RecvCloseRequested; CloserSeals] s0,
      run [CallSend (Some [Byte.x41]) 0 0 false; CloseRequest false;
           RecvCloseRequested; CloserSeals;
           CallSend (Some [Byte.x42]) 0 0 false; RecvIn] s0
    with
    | Some s, Some s' =>
      accepted [CallSend (Some [Byte.x42]) 0 0 false; RecvIn] s = [] /\
      closing s' = true /\ in_q s' `suffix_of` in_q s
    | _, _ => False
    end
  | None => False
  end.
Proof.
  cbv beta iota delta [newSendBuffer Z.ltb Z.compare].
  match goal with
  | |- match ?r with _ => _ end => set (o := r); vm_compute in o; subst o
  end.
  cbv beta iota.
  match goal with
  | |- match ?r with _ => _ end => set (o := r); vm_compute in o; subst o
  end.
  cbv beta iota.
  apply sealed_accepts_nothing; reflexivity.
Defined.

(** X8. A [send] that fails has accepted nothing: it returns zero bytes
    and leaves the in-queue, the loop and the frames already written as
    they were. The error is the broken-pipe error exactly when the buffer
    is closing (and then nothing at all has changed), and [ErrTimeout]
    otherwise, which takes a non-zero deadline. *)
Theorem send_error_accepts_nothing (s : sendBuffer) (b : slice)
  (writeDeadline now : Time) (expired : bool) (n : Z) (e : error)
  (s' : sendBuffer) :
  send s b writeDeadline now expired = SendReturns n (Some e) s' ->
  n = 0 /\ in_q s' = in_q s /\ at_pc s' = at_pc s /\ out s' = out s /\
  closing s' = closing s /\
  ((e = EPIPE /\ closing s = true /\ s' = s) \/
   (e = ErrTimeout /\ closing s = false /\ writeDeadline <> 0)).
Proof.
  destruct s as [h w q qc cr cl t p r once tout o].
  unfold send, doSend, chan_send, stop_and_drain, Stop, recvC, on_recv,
    IsZero, Before. cbn -[Z.ltb Z.eqb Z.of_nat].
  destruct (Z.eqb_spec writeDeadline 0) as [Hz | Hnz];
    repeat match goal with
    | |- context [match ?x with _ => _ end] =>
        lazymatch x with
        | context [match _ with _ => _ end] => fail
        | _ => destruct x eqn:?; cbn -[Z.ltb Z.eqb Z.of_nat]
        end
    end;
    intros [= <- <- <-]; cbn; repeat split; auto.
Qed.

Lemma send_error_accepts_nothing_witness :
  match newSendBuffer [Byte.x00; Byte.x00; Byte.x00; Byte.x07] 4 with
  | Some s0 =>
    0 = 0 /\ in_q (set_writeTimer Idle s0) = in_q s0 /\
    at_pc (set_writeTimer Idle s0) = at_pc s0 /\
    out (set_writeTimer Idle s0) = out s0 /\
    closing (set_writeTimer Idle s0) = closing s0 /\
    ((ErrTimeout = EPIPE /\ closing s0 = true /\ set_writeTimer Idle s0 = s0) \/
     (ErrTimeout = ErrTimeout /\ closing s0 = false /\ 20 <> 0))
  | None => False
  end.
Proof.
  cbv beta iota delta [newSendBuffer Z.ltb Z.compare].
  match goal with
  | |- context [in_q ?s = in_q ?s0] =>
      exact (send_error_accepts_nothing s0 (Some [Byte.x41]) 20 10 true 0
               ErrTimeout s eq_refl)
  end.
Defined.

Lemma idle_step e s s1 :
  writeTimer s = Idle -> step e s = Some s1 -> writeTimer s1 = Idle.
Proof.
  destruct s as [h w q qc cr cl t p r once tout o]. cbn. intros -> He.
  destruct e; step_cases He; reflexivity.
Qed.

Lemma idle_run tr s s1 :
  writeTimer s = Idle -> run tr s = Some s1 -> writeTimer s1 = Idle.
Proof.
  revert s. induction tr as [| e tr IH]; intros s Ht; cbn.
  - by intros [= <-].
  - destruct (step e s) as [s' |] eqn:He; [| discriminate].
    apply IH. by eapply idle_step.
Qed.

(** X9. The write timer does not survive a timeout. A [send] that returns
    [ErrTimeout] from a deadline that had not passed leaves the timer
    expired with its channel drained, and nothing arms it again: from then
    on, whatever happens, every [send] with a non-zero deadline that has
    not passed waits for ever in the timer idiom (as long as the buffer is
    not closing), and so does [close]. *)
Theorem timeout_disables_write_timer (s : sendBuffer) (b : slice)
  (writeDeadline now : Time) (expired : bool) (n : Z) (s1 : sendBuffer)
  (tr : list event) (s2 : sendBuffer) :
  now <= writeDeadline ->
  send s b writeDeadline now expired = SendReturns n (Some ErrTimeout) s1 ->
  run tr s1 = Some s2 ->
  writeTimer s2 = Idle /\
  step CloseStopTimer s2 = None /\
  (closing s2 = false ->
   forall b' deadline' now' expired',
     deadline' <> 0 -> now' <= deadline' ->
     send s2 b' deadline' now' expired' = SendBlocked).
Proof.
  intros Hdl Hsend Hrun.
  assert (Ht1 : writeTimer s1 = Idle).
  { revert Hsend. destruct s as [h w q qc cr cl t p r once tout o].
    unfold send, doSend, chan_send, stop_and_drain, Stop, recvC, on_recv,
      IsZero, Before. cbn -[Z.ltb Z.eqb Z.of_nat].
    destruct (Z.ltb_spec writeDeadline now); [lia |].
    repeat match goal with
    | |- context [match ?x with _ => _ end] =>
        lazymatch x with
        | context [match _ with _ => _ end] => fail
        | _ => destruct x eqn:?; cbn -[Z.ltb Z.eqb Z.of_nat]
        end
    end; intros [= <- <-]; reflexivity. }
  pose proof (idle_run _ _ _ Ht1 Hrun) as Ht2.
  split; [done |]. split.
  - cbn. unfold close_stop_timer. by rewrite Ht2.
  - intros Hc b' deadline' now' expired' Hnz Hle.
    unfold send, doSend, IsZero, Before. rewrite Hc, Ht2.
    destruct (Z.eqb_spec deadline' 0); [done |].
    destruct (Z.ltb_spec deadline' now'); [lia | reflexivity].
Qed.

Lemma timeout_disables_write_timer_witness :
  match newSendBuffer [Byte.x00; Byte.x00; Byte.x00; Byte.x07] 4 with
  | Some s0 =>
    let s1 := set_writeTimer Idle s0 in
    writeTimer s1 = Idle /\
    step CloseStopTimer s1 = None /\
    (closing s1 = false ->
     forall b' deadline' now' expired',
       deadline' <> 0 -> now' <= deadline' ->
       send s1 b' deadline' now' expired' = SendBlocked)
  | None => False
  end.
Proof.
  cbv beta iota zeta delta [newSendBuffer Z.ltb Z.compare].
  match goal with
  | |- writeTimer ?s1 = Idle /\ _ =>
      refine (timeout_disables_write_timer
                {| defaultHeader := [Byte.x00; Byte.x00; Byte.x00; Byte.x07];
                   windowSize := 4; in_q := []; in_closed := false;
                   closeRequested := None; closing := false;
                   writeTimer := Armed; at_pc := Select; sendRST := false;
                   closeOnce := false; closeTimedOut := false; out := [] |}
                (Some [Byte.x41]) 20 10 true 0 s1 [] s1 _ eq_refl eq_refl)
  end.
  lia.
Defined.

(** X10. A write that began before the loop took any close request can
    only be ended by the session writer. In a state reached from a new
    buffer where the loop is writing a frame and [signalClose] has not
    run, every schedule in which the writer does not receive leaves the
    loop in that write, with nothing more written: close requests stay
    unread, the close timeout never starts, and [close] keeps waiting. *)
Theorem write_before_close_needs_writer (hdr : list Byte.byte) (w : Z)
  (s0 : sendBuffer) (tr0 : list event) (s : sendBuffer)
  (frame : list Byte.byte) (tr : list event) (s' : sendBuffer) :
  newSendBuffer hdr w = Some s0 ->
  run tr0 s0 = Some s ->
  at_pc s = Write frame ->
  closeOnce s = false ->
  Forall (fun e => e <> WriterReceives) tr ->
  run tr s = Some s' ->
  at_pc s' = Write frame /\ closeOnce s' = false /\
  closeTimedOut s' = false /\ out s' = out s /\
  step CloseWait s' = None.
Proof.
  intros Hnew Hrun0 Hpc Honce Hquiet Hrun.
  destruct (newSendBuffer_inv _ _ _ Hnew) as (_ & Hc & Hd & _).
  destruct (run_inv _ _ _ _ _ _ Hc Hd Hrun0) as ((_ & Htc & Hco & _) & _).
  assert (Hcl : closing s = false)
    by (destruct (closing s); [rewrite Hco in Honce |]; done).
  assert (Hto : closeTimedOut s = false)
    by (destruct (closeTimedOut s); [rewrite Htc in Hcl |]; done).
  clear Hnew Hrun0 Hc Hd Htc Hco.
  assert (H : at_pc s' = Write frame /\ closeOnce s' = false /\
              closing s' = false /\ closeTimedOut s' = false /\
              out s' = out s).
  { revert s Hpc Honce Hcl Hto Hrun.
    induction Hquiet as [| e tr He Hquiet IH]; intros s Hpc Honce Hcl Hto;
      cbn.
    - intros [= <-]. done.
    - destruct (step e s) as [s1 |] eqn:Hs; [| discriminate]. intros Hrun.
      assert (H1 : at_pc s1 = Write frame /\ closeOnce s1 = false /\
                   closing s1 = false /\ closeTimedOut s1 = false /\
                   out s1 = out s).
      { clear IH Hrun Hquiet.
        destruct s as [h w0 q qc cr cl t p r once tout o].
        cbn in Hpc, Honce, Hcl, Hto. subst p once cl tout.
        destruct e; try done; step_cases Hs; cbn; done. }
      destruct H1 as (? & ? & ? & ? & Ho).
      rewrite <- Ho. by apply IH. }
  destruct H as (Hpc' & ? & ? & ? & ?).
  repeat split; try done. cbn. unfold close_wait. by rewrite Hpc'.
Qed.

Lemma write_before_close_needs_writer_witness :
  match newSendBuffer [Byte.x00; Byte.x00; Byte.x00; Byte.x07] 4 with
  | Some s0 =>
    match
      run [CallSend (Some [Byte.x41]) 0 0 false; RecvIn; WindowAvailable] s0
    with
    | Some s =>
      match run [CloseRequest true; CloseStopTimer] s with
      | Some s' =>
        at_pc s' = Write [Byte.x41] /\ closeOnce s' = false /\
        closeTimedOut s' = false /\ out s' = out s /\
        step CloseWait s' = None
      | None => False
      end
    | None => False
    end
  | None => False
  end.
Proof.
  cbv beta iota delta [newSendBuffer Z.ltb Z.compare].
  match goal with
  | |- match ?r with _ => _ end => destruct r as [s |] eqn:Hrun0
  end; [| vm_compute in Hrun0; discriminate Hrun0].
  match goal with
  | |- match ?r with _ => _ end => destruct r as [s' |] eqn:Hrun
  end.
  - refine (write_before_close_needs_writer
              [Byte.x00; Byte.x00; Byte.x00; Byte.x07] 4 _ _ s [Byte.x41] _ s'
              eq_refl Hrun0 _ _ _ Hrun).
    + vm_compute in Hrun0. injection Hrun0 as <-. reflexivity.
    + vm_compute in Hrun0. injection Hrun0 as <-. reflexivity.
    + repeat constructor; discriminate.
  - vm_compute in Hrun0. injection Hrun0 as <-.
    vm_compute in Hrun. discriminate Hrun.
Defined.

Lemma no_rst_step e s s1 :
  e <> CloseRequest true ->
  sendRST s = false /\ closeRequested s <> Some true ->
  step e s = Some s1 ->
  sendRST s1 = false /\ closeRequested s1 <> Some true.
Proof.
  destruct s as [h w q qc cr cl t p r once tout o]. cbn.
  intros He [-> Hcr] Hs.
  destruct e; step_cases Hs; cbn; try (split; congruence).
  all: match goal with
       | b : bool |- _ => destruct b; split; congruence
       end.
Qed.

(** X11. The RST frame is sent only on request. If no close request of a
    schedule asks for it, the loop's [sendRST] stays unset and everything
    the session writer receives is a payload frame: an accepted payload
    followed by the header. *)
Theorem no_rst_frame_unless_requested (hdr : list Byte.byte) (w : Z)
  (s0 : sendBuffer) (tr : list event) (s : sendBuffer) :
  newSendBuffer hdr w = Some s0 ->
  none_rst tr ->
  run tr s0 = Some s ->
  sendRST s = false /\
  exists fwd,
    out s = map (fun payload : list Byte.byte => payload ++ hdr) fwd /\
    fwd `sublist_of` frames (accepted tr s0).
Proof.
  intros Hnew Hnone Hrun.
  destruct (newSendBuffer_inv _ _ _ Hnew) as (Hh & Hc & Hd & _).
  destruct (run_inv _ _ _ _ _ _ Hc Hd Hrun) as (_ & fwd & rst & Hd').
  pose proof (run_defaultHeader _ _ _ Hrun) as Hh'. rewrite Hh in Hh'.
  assert (Hs : sendRST s = false).
  { assert (H0 : sendRST s0 = false /\ closeRequested s0 <> Some true).
    { revert Hnew. unfold newSendBuffer. destruct (w <? 0); [discriminate |].
      intros [= <-]. cbn. done. }
    clear Hnew Hh Hc Hd Hd' Hh'. revert s0 H0 Hrun.
    induction tr as [| e tr IH]; intros s0 H0; cbn.
    - intros [= <-]. tauto.
    - destruct (step e s0) as [s1 |] eqn:He; [| discriminate].
      apply IH.
      + intros b Hb. apply Hnone. by right.
      + eapply no_rst_step; [| done..].
        intros ->. specialize (Hnone true (or_introl eq_refl)).
        discriminate. }
  split; [done |].
  destruct Hd' as (Ho & Hr & Hsub & _).
  destruct rst; [destruct Hr as [_ Hr]; [done |]; congruence |].
  exists fwd. split.
  - rewrite Ho, Hh'. unfold wire. by rewrite app_nil_r.
  - cbn in Hsub. etrans; [| exact Hsub]. by apply sublist_inserts_r.
Qed.

Lemma no_rst_frame_unless_requested_witness :
  match newSendBuffer [Byte.x00; Byte.x00; Byte.x00; Byte.x07] 4 with
  | Some s0 =>
    match
      run [CallSend (Some [Byte.x41]) 0 0 false; CloseRequest false;
           RecvIn; WindowAvailable; WriterReceives; RecvCloseRequested;
           CloserSeals; RecvIn] s0
    with
    | Some s =>
      sendRST s = false /\
      exists fwd,
        out s = map (fun payload : list Byte.byte =>
                       payload ++ [Byte.x00; Byte.x00; Byte.x00; Byte.x07])
                  fwd /\
        fwd `sublist_of`
          frames (accepted
                    [CallSend (Some [Byte.x41]) 0 0 false; CloseRequest false;
                     RecvIn; WindowAvailable; WriterReceives;
                     RecvCloseRequested; CloserSeals; RecvIn] s0)
    | None => False
    end
  | None => False
  end.
Proof.
  cbv beta iota delta [newSendBuffer Z.ltb Z.compare].
  match goal with
  | |- match ?r with _ => _ end => destruct r as [s |] eqn:Hrun
  end; [| vm_compute in Hrun; discriminate Hrun].
  refine (no_rst_frame_unless_requested
            [Byte.x00; Byte.x00; Byte.x00; Byte.x07] 4 _ _ s eq_refl _ Hrun).
  intros b Hb. cbn in Hb.
  repeat (destruct Hb as [Hb | Hb]; [congruence |]). destruct Hb.
Defined.

Lemma granted_step e s s1 k :
  (length (out s) + in_flight s <= k + past_end s)%nat ->
  step e s = Some s1 ->
  (length (out s1) + in_flight s1 <= k + granted [e] + past_end s1)%nat.
Proof.
  destruct s as [h w q qc cr cl t p r once tout o].
  unfold in_flight, past_end. cbn. intros Hk Hs.
  destruct e; step_cases Hs; cbn in *; rewrite ?length_app; cbn; lia.
Qed.

(** X12. Flow control: the loop hands a payload frame to the session
    writer only against a window credit. Along every schedule the number
    of frames written, plus the one being written, is at most the number
    of credits obtained; the one frame beyond that is the RST frame, which
    can only be there once the loop has terminated. *)
Theorem frames_written_within_credits (hdr : list Byte.byte) (w : Z)
  (s0 : sendBuffer) (tr : list event) (s : sendBuffer) :
  newSendBuffer hdr w = Some s0 ->
  run tr s0 = Some s ->
  (length (out s) + in_flight s <= granted tr + past_end s)%nat.
Proof.
  intros Hnew Hrun.
  assert (H0 : (length (out s0) + in_flight s0 <= 0 + past_end s0)%nat).
  { revert Hnew. unfold newSendBuffer. destruct (w <? 0); [discriminate |].
    intros [= <-]. cbn. lia. }
  clear Hnew. change (granted tr) with (0 + granted tr)%nat.
  revert s0 H0 Hrun. generalize 0%nat as k.
  induction tr as [| e tr IH]; intros k s0 H0; cbn [run].
  - intros [= <-]. cbn. lia.
  - destruct (step e s0) as [s1 |] eqn:He; [| discriminate]. intros Hrun.
    pose proof (granted_step _ _ _ _ H0 He) as H1.
    specialize (IH _ _ H1 Hrun).
    assert (Hg : granted (e :: tr) = (granted [e] + granted tr)%nat)
      by (destruct e; reflexivity).
    rewrite Hg. lia.
Qed.

Lemma frames_written_within_credits_witness :
  match newSendBuffer [Byte.x00; Byte.x00; Byte.x00; Byte.x07] 4 with
  | Some s0 =>
    match
      run [CallSend (Some [Byte.x41]) 0 0 false; RecvIn; WindowAvailable;
           WriterReceives] s0
    with
    | Some s => (length (out s) + in_flight s <= 1 + past_end s)%nat
    | None => False
    end
  | None => False
  end.
Proof.
  cbv beta iota delta [newSendBuffer Z.ltb Z.compare].
  match goal with
  | |- match ?r with _ => _ end => destruct r as [s |] eqn:Hrun
  end; [| vm_compute in Hrun; discriminate Hrun].
  exact (frames_written_within_credits
           [Byte.x00; Byte.x00; Byte.x00; Byte.x07] 4 _ _ s eq_refl Hrun).
Defined.

Lemma credit_wait_step e s s1 f :
  e <> WindowAvailable -> (forall b, e <> CloseRequest b) ->
  at_pc s = AwaitWindow f -> closeRequested s = None ->
  step e s = Some s1 ->
  at_pc s1 = AwaitWindow f /\ closeRequested s1 = None /\ out s1 = out s.
Proof.
  destruct s as [h w q qc cr cl t p r once tout o]. cbn.
  intros Hw Hc -> -> Hs.
  destruct e;
    try match goal with
        | H : forall b, CloseRequest ?r <> CloseRequest b |- _ =>
            by destruct (H r)
        end;
    try done; step_cases Hs; cbn; done.
Qed.

(** X21. The first wait for a window credit has no timeout. When the loop
    has taken a payload and waits for a credit while no close request is
    waiting to be read, it stays in that wait, with nothing more written,
    along every schedule that brings neither a credit nor a new close
    request: the close timeout, fired or not, is not looked at there, the
    loop does not terminate, and [close] keeps waiting for it. *)
Theorem credit_wait_ignores_close_timeout (s : sendBuffer)
  (frame : list Byte.byte) (tr : list event) (s' : sendBuffer) :
  at_pc s = AwaitWindow frame ->
  closeRequested s = None ->
  Forall (fun e => e <> WindowAvailable /\ forall b, e <> CloseRequest b) tr ->
  run tr s = Some s' ->
  at_pc s' = AwaitWindow frame /\ closeRequested s' = None /\
  out s' = out s /\
  step RecvCloseTimedOut s' = None /\ step CloseWait s' = None.
Proof.
  intros Hpc Hcr Hquiet Hrun.
  assert (H : at_pc s' = AwaitWindow frame /\ closeRequested s' = None /\
              out s' = out s).
  { revert s Hpc Hcr Hrun.
    induction Hquiet as [| e tr [Hw Hc] Hquiet IH]; intros s Hpc Hcr; cbn.
    - by intros [= <-].
    - destruct (step e s) as [s1 |] eqn:Hs; [| discriminate]. intros Hrun.
      destruct (credit_wait_step _ _ _ _ Hw Hc Hpc Hcr Hs)
        as (Hpc1 & Hcr1 & Ho1).
      rewrite <- Ho1. by apply IH. }
  destruct H as (Hpc' & Hcr' & Ho').
  repeat split; try done.
  - cbn. rewrite Hpc'. by destruct (closeTimedOut s').
  - cbn. unfold close_wait. by rewrite Hpc'.
Qed.

Lemma credit_wait_ignores_close_timeout_witness :
  match newSendBuffer [Byte.x00; Byte.x00; Byte.x00; Byte.x07] 4 with
  | Some s0 =>
    match
      run [CallSend (Some [Byte.x41]) 0 0 false; CloseRequest true;
           RecvCloseRequested; CloserSeals; RecvIn; CloserTimesOut] s0
    with
    | Some s =>
      closeTimedOut s = true /\
      match run [CloseStopTimer; CallSend (Some [Byte.x42]) 0 0 false] s with
      | Some s' =>
        at_pc s' = AwaitWindow [Byte.x41] /\ closeRequested s' = None /\
        out s' = out s /\
        step RecvCloseTimedOut s' = None /\ step CloseWait s' = None
      | None => False
      end
    | None => False
    end
  | None => False
  end.
Proof.
  cbv beta iota delta [newSendBuffer Z.ltb Z.compare].
  match goal with
  | |- match ?r with _ => _ end => destruct r as [s |] eqn:Hrun0
  end; [| vm_compute in Hrun0; discriminate Hrun0].
  split; [vm_compute in Hrun0; injection Hrun0 as <-; reflexivity |].
  match goal with
  | |- match ?r with _ => _ end => destruct r as [s' |] eqn:Hrun
  end.
  - refine (credit_wait_ignores_close_timeout s [Byte.x41] _ s' _ _ _ Hrun).
    + vm_compute in Hrun0. injection Hrun0 as <-. reflexivity.
    + vm_compute in Hrun0. injection Hrun0 as <-. reflexivity.
    + repeat constructor; discriminate.
  - vm_compute in Hrun0. injection Hrun0 as <-.
    vm_compute in Hrun. discriminate Hrun.
Defined.

End SendLaws.

(** ** More on the receive buffer *)

Module ReceiveLaws.
Import ReceiveBuffer ReceiveFacts.

Lemma onFrame_well_formed frame buf :
  well_formed frame -> exists buf1, onFrame frame buf = inl buf1.
Proof.
  unfold well_formed, onFrame. intros Hwf.
  destruct (Nat.ltb_spec (length (default [] frame)) dataHeaderSize) as [Hc | _];
    [lia | eauto].
Qed.




Lemma read_loop_settled fuel1 fuel2 buf b data totalN
  deadline1 now1 waits1 deadline2 now2 waits2 :
  b = 0%nat \/ in_closed buf = true \/ totalN > 0 \/ buffered buf <> [] ->
  0 <= totalN ->
  (length (in_q buf) < fuel1)%nat -> (length (in_q buf) < fuel2)%nat ->
  read_loop fuel1 buf b data totalN deadline1 now1 waits1
  = read_loop fuel2 buf b data totalN deadline2 now2 waits2 /\
  read_loop fuel1 buf b data totalN deadline1 now1 waits1 <> ReadBlocked.
Proof.
  revert fuel2 buf b data totalN.
  induction fuel1 as [| fuel1 IH];
    intros [| fuel2] buf b data totalN Hc Hn H1 H2; try lia.
  cbn [read_loop].
  set (n := Nat.min b (length (current buf))).
  destruct (Nat.eqb_spec n b) as [Hnb | Hnb]; [done |].
  assert (Hcur : n = length (current buf)) by lia.
  cbn [in_q in_closed set_current].
  destruct (in_q buf) as [| frame q] eqn:Hq.
  - destruct (in_closed buf) eqn:Hcl; [done |].
    assert (Hpos : (totalN + Z.of_nat n >? 0) = true).
    { apply Z.gtb_gt. destruct Hc as [Hc | [Hc | [Hc | Hc]]]; try lia;
        try discriminate.
      unfold buffered in Hc. rewrite Hq in Hc. cbn in Hc.
      rewrite app_nil_r in Hc. destruct (current buf); [done | cbn in Hcur; lia]. }
    by rewrite Hpos.
  - destruct (onFrame _ _) as [buf0 | buf0] eqn:Hon; [| done].
    apply onFrame_inl in Hon as (Hcur0 & _ & Hq0 & Hc0 & _).
    cbn in Hq0, Hc0. cbn in H1, H2.
    apply IH; rewrite ?Hq0; try lia.
    destruct Hc as [Hc | [Hc | [Hc | Hc]]]; try lia.
    + right. left. by rewrite Hc0.
    + destruct (current buf) as [| x cur] eqn:Hcb.
      * do 3 right. unfold buffered in *. rewrite Hcb, Hq in Hc.
        by rewrite Hcur0, Hq0.
      * right. right. left. cbn in Hcur. lia.
Qed.

(** X14. As long as some data is buffered, [read] does not wait. When the
    buffer holds at least one payload byte (left over from the current
    frame or in a queued frame), or its queue is sealed, or the destination
    is empty, [read] ends by itself: it never blocks, and what it returns
    and the state it leaves depend neither on the deadline nor on the clock
    nor on what happens while a read would wait. *)
Theorem buffered_data_is_read_without_waiting (buf : receiveBuffer) (b : nat)
  (deadline1 now1 : Time) (waits1 : list wait)
  (deadline2 now2 : Time) (waits2 : list wait) :
  b = 0%nat \/ in_closed buf = true \/ buffered buf <> [] ->
  read buf b deadline1 now1 waits1 <> ReadBlocked /\
  read buf b deadline1 now1 waits1 = read buf b deadline2 now2 waits2.
Proof.
  intros Hc.
  destruct (read_loop_settled (S (length (in_q buf) + length waits1))
              (S (length (in_q buf) + length waits2)) buf b [] 0
              deadline1 now1 waits1 deadline2 now2 waits2)
    as [Heq Hnb]; try lia; [tauto |].
  unfold read. rewrite <- Heq.
  by destruct (read_loop _ _ _ _ _ _ _ _).
Qed.

Lemma buffered_data_is_read_without_waiting_witness :
  let buf :=
    {| defaultHeader := [Byte.x00; Byte.x00; Byte.x00; Byte.x07];
       windowSize := 25; ackInterval := 3; unacked := 1;
       in_q := [Some [Byte.x00; Byte.x00; Byte.x00; Byte.x07; Byte.x00;
                      Byte.x01; Byte.x43]];
       in_closed := false; ack := []; pool := [];
       poolable := None; current := []; closed := false |} in
  read buf 4 0 0 [] <> ReadBlocked /\
  read buf 4 0 0 [] = read buf 4 5 9 [{| wakes := TimerFires; clock := 9 |}].
Proof.
  intros buf.
  apply (buffered_data_is_read_without_waiting buf 4 0 0 [] 5 9
           [{| wakes := TimerFires; clock := 9 |}]).
  right. right. vm_compute. discriminate.
Defined.

Lemma read_loop_errors fuel buf b data totalN deadline now waits
  data' n' err buf' :
  totalN = Z.of_nat (length data) ->
  read_loop fuel buf b data totalN deadline now waits
  = ReadReturns data' n' err buf' ->
  n' = Z.of_nat (length data') /\
  (err = Some ErrTimeout ->
   data' = [] /\ in_q buf' = [] /\ current buf' = [] /\
   in_closed buf' = false /\ (exists w, In w waits /\ wakes w = TimerFires)) /\
  (err = Some EOF -> in_q buf' = [] /\ current buf' = []).
Proof.
  revert buf b data totalN deadline now waits.
  induction fuel as [| fuel IH];
    intros buf b data totalN deadline now waits Hn; [done |].
  cbn [read_loop].
  set (n := Nat.min b (length (current buf))).
  assert (Hlen : totalN + Z.of_nat n
                 = Z.of_nat (length (data ++ take n (current buf)))).
  { rewrite length_app, length_take. lia. }
  destruct (Nat.eqb_spec n b) as [Hnb | Hnb].
  { intros [= <- <- <- <-]. by repeat split. }
  assert (Hcur : drop n (current buf) = []) by (apply drop_ge; lia).
  cbn [in_q in_closed set_current].
  destruct (in_q buf) as [| frame q] eqn:Hq.
  - destruct (in_closed buf) eqn:Hcl.
    { intros [= <- <- <- <-]. cbn. by repeat split. }
    destruct (Z.gtb_spec (totalN + Z.of_nat n) 0) as [Hpos | Hzero].
    { intros [= <- <- <- <-]. by repeat split. }
    match goal with |- context [if ?c then _ else _] => destruct c end.
    { intros [= <- <- <- <-]. by repeat split. }
    destruct waits as [| w waits]; [done |].
    destruct (wakes w) as [| f |] eqn:Hw.
    + intros [= <- <- <- <-]. cbn. repeat split; try done.
      * destruct (data ++ take n (current buf)); [done | cbn in Hlen; lia].
      * exists w. split; [by left | done].
    + destruct (onFrame _ _) as [buf0 | buf0] eqn:Hon; [| done].
      intros Hloop. apply IH in Hloop as (Hn' & Ht & He); [| done].
      split; [done |]. split; [| done].
      intros E. destruct (Ht E) as (? & ? & ? & ? & w' & Hin & Hw').
      repeat split; try done. exists w'. split; [by right | done].
    + intros [= <- <- <- <-]. unfold close. cbn.
      split; [done |]. split; [done |]. intros _.
      by destruct (closed buf); cbn.
  - destruct (onFrame _ _) as [buf0 | buf0] eqn:Hon; [| done].
    intros Hloop. by apply IH in Hloop.
Qed.

(** X15. The errors of [read]. The count returned is the number of bytes
    delivered. [ErrTimeout] comes only with zero bytes, from a buffer that
    is then empty and not sealed, and only after the timer fired during a
    wait. [EOF] comes only when nothing is left: the queue is empty and the
    current payload has been delivered in full. *)
Theorem read_error_contract (buf : receiveBuffer) (b : nat)
  (deadline now : Time) (waits : list wait) (data : list Byte.byte) (n : Z)
  (err : option error) (buf' : receiveBuffer) :
  read buf b deadline now waits = ReadReturns data n err buf' ->
  n = Z.of_nat (length data) /\
  (err = Some ErrTimeout ->
   data = [] /\ buffered buf' = [] /\ in_closed buf' = false /\
   exists w, In w waits /\ wakes w = TimerFires) /\
  (err = Some EOF -> buffered buf' = []).
Proof.
  intros Hread. apply read_returns in Hread as (buf1 & Hloop & ->).
  apply read_loop_errors in Hloop as (Hn & Ht & He); [| done].
  destruct (flush_ack_cases buf1) as (_ & _ & _ & Hc & Hi).
  assert (Hcl : in_closed (flush_ack buf1) = in_closed buf1).
  { unfold flush_ack. by destruct (_ >=? _). }
  unfold buffered. rewrite Hc, Hi, Hcl.
  split; [done |]. split.
  - intros E. destruct (Ht E) as (-> & -> & -> & ? & ?). by repeat split.
  - intros E. by destruct (He E) as (-> & ->).
Qed.

Lemma read_error_contract_witness :
  let buf :=
    {| defaultHeader := [Byte.x00; Byte.x00; Byte.x00; Byte.x07];
       windowSize := 25; ackInterval := 3; unacked := 0;
       in_q := []; in_closed := false; ack := []; pool := [];
       poolable := None; current := []; closed := false |} in
  0 = Z.of_nat (length (@nil Byte.byte)) /\
  (Some ErrTimeout = Some ErrTimeout ->
   @nil Byte.byte = [] /\ buffered buf = [] /\ in_closed buf = false /\
   exists w, In w [{| wakes := TimerFires; clock := 9 |}] /\
             wakes w = TimerFires) /\
  (Some ErrTimeout = Some EOF -> buffered buf = []).
Proof.
  intros buf.
  exact (read_error_contract buf 4 5 1 [{| wakes := TimerFires; clock := 9 |}]
           [] 0 (Some ErrTimeout) buf eq_refl).
Defined.

Lemma read_loop_progress fuel buf b data totalN deadline now waits :
  Forall well_formed (in_q buf) ->
  b <> 0%nat ->
  buffered buf <> [] \/ totalN > 0 ->
  0 <= totalN ->
  (length (in_q buf) < fuel)%nat ->
  exists data' n' err buf',
    read_loop fuel buf b data totalN deadline now waits
    = ReadReturns data' n' err buf' /\
    (buffered buf <> [] -> (length data < length data')%nat).
Proof.
  revert buf b data totalN.
  induction fuel as [| fuel IH];
    intros buf b data totalN Hwf Hb Hc Hn Hfuel; [lia |].
  cbn [read_loop].
  set (n := Nat.min b (length (current buf))).
  destruct (Nat.eqb_spec n b) as [Hnb | Hnb].
  { do 4 eexists. split; [reflexivity |].
    intros _. rewrite length_app, length_take. lia. }
  assert (Hcur : n = length (current buf)) by lia.
  assert (Htake : take n (current buf) = current buf)
    by (apply take_ge; lia).
  assert (Hdrop : drop n (current buf) = []) by (apply drop_ge; lia).
  rewrite Htake, Hdrop.
  cbn [in_q in_closed set_current].
  destruct (in_q buf) as [| frame q] eqn:Hq.
  - assert (Hbuf : buffered buf = current buf).
    { unfold buffered. rewrite Hq. cbn. by rewrite app_nil_r. }
    assert (Hgrow : buffered buf <> [] ->
                    (length data < length (data ++ current buf))%nat).
    { rewrite Hbuf, length_app. destruct (current buf); [done | cbn; lia]. }
    destruct (in_closed buf).
    { do 4 eexists. split; [reflexivity | done]. }
    assert (Hpos : (totalN + Z.of_nat n >? 0) = true).
    { apply Z.gtb_gt. destruct Hc as [Hc | Hc]; [| lia].
      apply Hgrow in Hc. rewrite length_app in Hc. lia. }
    rewrite Hpos. do 4 eexists. split; [reflexivity | done].
  - pose proof (Forall_inv Hwf) as Hf.
    pose proof (Forall_inv_tail Hwf) as Hwf'.
    destruct (onFrame_well_formed frame (set_in q (set_current [] buf)) Hf)
      as [buf0 Hon].
    rewrite Hon.
    apply onFrame_inl in Hon as (Hcur0 & _ & Hq0 & _).
    cbn in Hq0. cbn in Hfuel.
    assert (Hbuf0 : buffered buf = current buf ++ buffered buf0).
    { unfold buffered. by rewrite Hq, Hcur0, Hq0. }
    destruct (IH buf0 (b - n)%nat (data ++ current buf)
                (totalN + Z.of_nat n))
      as (data' & n' & err & buf' & Hloop & Hgrow);
      rewrite ?Hq0; try done; try lia.
    { destruct Hc as [Hc | Hc]; [| right; lia].
      destruct (current buf) as [| x cur] eqn:Hcb.
      - left. by rewrite Hbuf0 in Hc.
      - right. cbn in Hcur. lia. }
    exists data', n', err, buf'. split; [done |].
    intros Hne.
    pose proof (read_loop_post fuel buf0 (b - n) (data ++ current buf)
                  (totalN + Z.of_nat n) deadline now waits) as Hpost.
    rewrite Hloop in Hpost.
    destruct Hpost as (qs & ws & _ & _ & _ & _ & Hpre & _).
    apply prefix_length in Hpre. rewrite length_app in Hpre.
    destruct (current buf) as [| x cur] eqn:Hcb.
    + rewrite Hbuf0 in Hne. apply Hgrow in Hne.
      rewrite length_app in Hne. cbn in *. lia.
    + cbn in Hpre. lia.
Qed.

(** X16. A read with room makes progress. When every queued frame is long
    enough to carry a header, the destination is not empty and the buffer
    holds at least one payload byte, [read] returns, and it delivers at
    least one byte, whatever the deadline and the clock. *)
Theorem read_delivers_buffered_byte (buf : receiveBuffer) (b : nat)
  (deadline now : Time) (waits : list wait) :
  Forall well_formed (in_q buf) ->
  b <> 0%nat ->
  buffered buf <> [] ->
  exists data n err buf',
    read buf b deadline now waits = ReadReturns data n err buf' /\
    data <> [] /\ 0 < n.
Proof.
  intros Hwf Hb Hne.
  destruct (read_loop_progress (S (length (in_q buf) + length waits)) buf b
              [] 0 deadline now waits Hwf Hb (or_introl Hne))
    as (data & n & err & buf1 & Hloop & Hgrow); try lia.
  specialize (Hgrow Hne).
  pose proof (read_loop_errors _ _ _ _ _ _ _ _ _ _ _ _ eq_refl Hloop)
    as (Hn & _).
  unfold read. rewrite Hloop.
  exists data, n, err, (flush_ack buf1). split; [done |].
  destruct data; cbn in *; [lia |]. split; [done | lia].
Qed.

Lemma read_delivers_buffered_byte_witness :
  let buf :=
    {| defaultHeader := [Byte.x00; Byte.x00; Byte.x00; Byte.x07];
       windowSize := 25; ackInterval := 3; unacked := 1;
       in_q := [Some [Byte.x00; Byte.x00; Byte.x00; Byte.x07; Byte.x00;
                      Byte.x00];
                Some [Byte.x00; Byte.x00; Byte.x00; Byte.x07; Byte.x00;
                      Byte.x01; Byte.x43]];
       in_closed := false; ack := []; pool := [];
       poolable := None; current := []; closed := false |} in
  exists data n err buf',
    read buf 4 5 9 [] = ReadReturns data n err buf' /\ data <> [] /\ 0 < n.
Proof.
  intros buf.
  apply (read_delivers_buffered_byte buf 4 5 9 []).
  - repeat constructor; unfold well_formed, dataHeaderSize; cbn; lia.
  - lia.
  - vm_compute. discriminate.
Defined.

Lemma flush_ack_frame buf :
  windowSize (flush_ack buf) = windowSize buf /\
  poolable (flush_ack buf) = poolable buf /\
  closed (flush_ack buf) = closed buf.
Proof. unfold flush_ack. by destruct (_ >=? _). Qed.

Lemma onFrame_shape frame buf :
  match onFrame frame buf with
  | inl buf1 => poolable buf1 = frame /\ closed buf1 = closed buf
  | inr buf1 =>
    poolable buf1 = frame /\ closed buf1 = closed buf /\
    current buf1 = current buf /\ in_q buf1 = in_q buf /\
    windowSize buf1 = windowSize buf
  end.
Proof.
  unfold onFrame.
  destruct (poolable buf); cbn;
    match goal with |- context [if ?c then _ else _] => destruct c end;
    cbn; auto.
Qed.

Lemma read_loop_keeps fuel buf b data totalN deadline now waits buf' :
  state_after (read_loop fuel buf b data totalN deadline now waits)
  = Some buf' ->
  windowSize buf' = windowSize buf /\
  (length (in_q buf') <= length (in_q buf))%nat /\
  (holds_current buf -> holds_current buf').
Proof.
  revert buf b data totalN deadline now waits.
  induction fuel as [| fuel IH];
    intros buf b data totalN deadline now waits; [done |].
  cbn [read_loop].
  set (n := Nat.min b (length (current buf))).
  assert (Hsuf : holds_current buf ->
                 holds_current (set_current (drop n (current buf)) buf)).
  { unfold holds_current. cbn. intros H.
    etrans; [apply suffix_drop | exact H]. }
  destruct (Nat.eqb_spec n b) as [Hnb | Hnb].
  { intros [= <-]. by cbn. }
  assert (Hdrop : drop n (current buf) = []) by (apply drop_ge; lia).
  cbn [in_q in_closed set_current].
  destruct (in_q buf) as [| frame q] eqn:Hq.
  - destruct (in_closed buf).
    { intros [= <-]. cbn. by rewrite Hq. }
    destruct (_ >? _).
    { intros [= <-]. cbn. by rewrite Hq. }
    match goal with |- context [if ?c then _ else _] => destruct c end.
    { intros [= <-]. cbn. by rewrite Hq. }
    destruct waits as [| w waits]; [done |].
    destruct (wakes w) as [| f |].
    + intros [= <-]. cbn. by rewrite Hq.
    + pose proof (onFrame_shape f (set_current (drop n (current buf)) buf))
        as Hsh.
      destruct (onFrame _ _) as [buf0 | buf0] eqn:Hon.
      * apply onFrame_inl in Hon as (Hc0 & _ & Hq0 & _ & _ & _ & _ & Hw0).
        destruct Hsh as [Hp0 _]. cbn in Hq0, Hw0.
        intros Hloop. apply IH in Hloop as (Hw & Hl & Hh).
        rewrite Hq0, Hq in Hl.
        rewrite Hw, Hw0. split; [done |]. split; [done |].
        intros _. apply Hh. unfold holds_current. by rewrite Hc0, Hp0.
      * destruct Hsh as (Hp0 & _ & Hc0 & Hq0 & Hw0). cbn in Hc0, Hq0, Hw0.
        intros [= <-]. rewrite Hw0, Hq0, Hq. split; [done |]. split; [done |].
        intros _. unfold holds_current. rewrite Hc0, Hdrop.
        apply suffix_nil.
    + intros [= <-]. unfold close. cbn [closed set_current].
      destruct (closed buf); cbn [negb];
        (split; [done |]); (split; [cbn; by rewrite Hq |]);
        intros H; exact (Hsuf H).
  - pose proof (onFrame_shape frame
                  (set_in q (set_current (drop n (current buf)) buf))) as Hsh.
    destruct (onFrame _ _) as [buf0 | buf0] eqn:Hon.
    + apply onFrame_inl in Hon as (Hc0 & _ & Hq0 & _ & _ & _ & _ & Hw0).
      destruct Hsh as [Hp0 _]. cbn in Hq0, Hw0.
      intros Hloop. apply IH in Hloop as (Hw & Hl & Hh).
      rewrite Hq0 in Hl.
      rewrite Hw, Hw0. split; [done |]. split; [cbn; lia |].
      intros _. apply Hh. unfold holds_current. by rewrite Hc0, Hp0.
    + destruct Hsh as (Hp0 & _ & Hc0 & Hq0 & Hw0). cbn in Hc0, Hq0, Hw0.
      intros [= <-]. rewrite Hw0, Hq0. split; [done |]. split; [cbn; lia |].
      intros _. unfold holds_current. rewrite Hc0, Hdrop.
      apply suffix_nil.
Qed.

Lemma read_keeps buf b deadline now waits buf' :
  state_after (read buf b deadline now waits) = Some buf' ->
  windowSize buf' = windowSize buf /\
  (length (in_q buf') <= length (in_q buf))%nat /\
  (holds_current buf -> holds_current buf').
Proof.
  unfold read.
  pose proof (read_loop_keeps (S (length (in_q buf) + length waits)) buf b
                [] 0 deadline now waits) as Hk.
  destruct (read_loop _ _ _ _ _ _ _ _) as [| buf1 | d1 n1 e1 buf1];
    [done | |]; intros [= <-];
    destruct (Hk buf1 eq_refl) as (Hw & Hl & Hh);
    destruct (flush_ack_cases buf1) as (_ & _ & _ & Hc & Hi);
    destruct (flush_ack_frame buf1) as (Hw1 & Hp1 & _);
    unfold holds_current; rewrite Hw1, Hi, Hc, Hp1; auto.
Qed.

(** X17. The bytes still to be delivered are never in a pooled frame. In
    every state reached from a new buffer by [submit], [close] and [read]
    (returning or panicking), what is left in [current] is a tail of the
    payload of [poolable], the one frame the buffer keeps out of the pool:
    [onFrame] returns a frame to the pool only once [read] has copied all
    of its payload out. *)
Theorem current_never_pooled :
  (forall hdr w buf, newReceiveBuffer hdr w = Some buf -> holds_current buf) /\
  (forall frame buf buf',
     holds_current buf -> submit frame buf = Some buf' -> holds_current buf') /\
  (forall buf, holds_current buf -> holds_current (close buf)) /\
  (forall buf b deadline now waits buf',
     holds_current buf ->
     state_after (read buf b deadline now waits) = Some buf' ->
     holds_current buf').
Proof.
  repeat split.
  - intros hdr w buf. unfold newReceiveBuffer.
    destruct (w <? 0); [done |]. intros [= <-]. apply suffix_nil.
  - intros frame buf buf' H. unfold submit.
    destruct (closed buf); [by intros [= <-] |].
    destruct (_ <? _); [| done]. by intros [= <-].
  - intros buf H. unfold close. by destruct (closed buf).
  - intros buf b deadline now waits buf' H Hr.
    by apply read_keeps in Hr as (_ & _ & Hh); auto.
Qed.

Lemma current_never_pooled_witness :
  let frame :=
    Some [Byte.x00; Byte.x00; Byte.x00; Byte.x07; Byte.x00; Byte.x03;
          Byte.x41; Byte.x42; Byte.x43] in
  let buf :=
    {| defaultHeader := [Byte.x00; Byte.x00; Byte.x00; Byte.x07];
       windowSize := 25; ackInterval := 3; unacked := 1;
       in_q := []; in_closed := false; ack := []; pool := [];
       poolable := frame; current := [Byte.x42; Byte.x43];
       closed := false |} in
  holds_current buf /\
  match state_after (read buf 1 0 0 []) with
  | Some buf' => holds_current buf'
  | None => False
  end.
Proof.
  intros frame buf.
  assert (H : holds_current buf) by (exists [Byte.x41]; reflexivity).
  split; [exact H |].
  destruct (state_after (read buf 1 0 0 [])) as [buf' |] eqn:Hr;
    [| vm_compute in Hr; discriminate Hr].
  exact (proj2 (proj2 (proj2 current_never_pooled)) buf 1%nat 0 0 [] buf' H Hr).
Defined.

(** X18. The in-queue of the receive buffer stays within the window. From
    a new buffer on, under [submit], [close] and [read] (returning or
    panicking), the window size does not change and the number of queued
    frames never exceeds it. *)
Theorem receive_queue_within_window :
  (forall hdr w buf,
     newReceiveBuffer hdr w = Some buf ->
     windowSize buf = w /\ within_window buf) /\
  (forall frame buf buf',
     within_window buf -> submit frame buf = Some buf' ->
     windowSize buf' = windowSize buf /\ within_window buf') /\
  (forall buf,
     within_window buf ->
     windowSize (close buf) = windowSize buf /\ within_window (close buf)) /\
  (forall buf b deadline now waits buf',
     within_window buf ->
     state_after (read buf b deadline now waits) = Some buf' ->
     windowSize buf' = windowSize buf /\ within_window buf').
Proof.
  unfold within_window. repeat split.
  - revert H. unfold newReceiveBuffer. destruct (w <? 0); [done |].
    by intros [= <-].
  - revert H. unfold newReceiveBuffer. destruct (w <? 0); [done |].
    intros [= <-]. cbn. lia.
  - revert H0. unfold submit. destruct (closed buf); [by intros [= <-] |].
    destruct (_ <? _); [| done]. by intros [= <-].
  - revert H0. unfold submit. destruct (closed buf); [by intros [= <-] |].
    destruct (Z.ltb_spec (Z.of_nat (length (in_q buf))) (windowSize buf));
      [| done].
    intros [= <-]. cbn. rewrite length_app. cbn. lia.
  - unfold close. by destruct (closed buf).
  - unfold close. by destruct (closed buf).
  - by apply read_keeps in H0 as (Hw & _).
  - apply read_keeps in H0 as (Hw & Hl & _). rewrite Hw. lia.
Qed.
Lemma receive_queue_within_window_witness :
  match newReceiveBuffer [Byte.x00; Byte.x00; Byte.x00; Byte.x07] 1 with
  | Some buf =>
    within_window buf /\
    match
      submit (Some [Byte.x00; Byte.x00; Byte.x00; Byte.x07; Byte.x00;
                    Byte.x01; Byte.x43]) buf
    with
    | Some buf' => windowSize buf' = windowSize buf /\ within_window buf'
    | None => False
    end
  | None => False
  end.
Proof.
  destruct (newReceiveBuffer [Byte.x00; Byte.x00; Byte.x00; Byte.x07] 1)
    as [buf |] eqn:Hnew; [| vm_compute in Hnew; discriminate Hnew].
  destruct (proj1 receive_queue_within_window _ _ _ Hnew) as [Hw Hin].
  split; [exact Hin |].
  destruct (submit _ buf) as [buf' |] eqn:Hsub.
  - exact (proj1 (proj2 receive_queue_within_window) _ buf buf' Hin Hsub).
  - unfold submit in Hsub. injection Hnew as <-. cbn in Hsub.
    discriminate Hsub.
Defined.
End ReceiveLaws.

(** ** Operation tracking *)

Module OpsLaws.
Import Ops.

Lemma registered_app rs acc :
  fold_left (fun reporters reporter => RegisterReporter reporter reporters)
    rs acc = acc ++ rs.
Proof.
  revert acc. induction rs as [| r rs IH]; intros acc; cbn.
  - by rewrite app_nil_r.
  - rewrite IH. unfold RegisterReporter. by rewrite <- app_assoc.
Qed.

Lemma calls_state cs o o' :
  calls cs o = Some o' ->
  ctx o' = ctx o /\
  canceled o' = canceled o || cancels cs /\
  failure o' = latest cs (failure o).
Proof.
  revert o. induction cs as [| [[v |] |] cs IH]; intros o; cbn.
  - intros [= <-]. by rewrite orb_false_r.
  - unfold Store. destruct (failure o) as [old |] eqn:Hf.
    + destruct (_ =? _)%nat; [| done]. intros H.
      apply IH in H as (Hc & Hk & Hl). by cbn in *.
    + intros H. apply IH in H as (Hc & Hk & Hl). by cbn in *.
  - apply IH.
  - intros H. apply IH in H as (Hc & Hk & Hl). cbn in *.
    by rewrite Hk, orb_true_r.
Qed.

Lemma calls_succeed cs o :
  (exists o', calls cs o = Some o') <->
  one_type (match failure o with
            | Some old => dynamic_type old :: error_types cs
            | None => error_types cs
            end).
Proof.
  revert o. induction cs as [| [[v |] |] cs IH]; intros o; cbn.
  - split; [| by eauto]. intros _ t u.
    destruct (failure o); cbn; intros Ht Hu; [| done].
    by destruct Ht as [<- |], Hu as [<- |].
  - unfold Store. destruct (failure o) as [old |] eqn:Hf.
    + destruct (Nat.eqb_spec (dynamic_type old) (dynamic_type v))
        as [Heq | Hne].
      * rewrite IH. cbn. unfold one_type. rewrite Heq. split.
        -- intros H t u Ht Hu. apply H; cbn in *; tauto.
        -- intros H t u Ht Hu. apply H; cbn in *; tauto.
      * split; [by intros [o' H] |].
        intros H. exfalso. apply Hne. apply H; cbn; tauto.
    + rewrite IH. by cbn.
  - apply IH.
  - rewrite IH. by cbn.
Qed.

(** X19. [FailIf] keeps the latest error, for errors of one concrete type
    only. A sequence of [FailIf] and [Cancel] calls on a new op goes
    through exactly when all the non-nil errors passed have the same
    concrete type: the [atomic.Value] that holds the failure panics on a
    store of another type. When the calls go through, the op holds the
    last non-nil error passed, nil errors having changed nothing. *)
Theorem failIf_keeps_latest_error_of_one_type (c : Context)
  (cs : list call) :
  ((exists o', calls cs (Begin c) = Some o') <-> one_type (error_types cs)) /\
  (forall o', calls cs (Begin c) = Some o' -> failure o' = latest cs None).
Proof.
  split.
  - by rewrite calls_succeed.
  - intros o' H. by apply calls_state in H as (_ & _ & Hl).
Qed.

Lemma failIf_keeps_latest_error_of_one_type_witness :
  let c := {| AsMap := fun _ _ => ∅ |} in
  let e1 := {| dynamic_type := 1; Error := "first" |} in
  let e2 := {| dynamic_type := 1; Error := "second" |} in
  let cs := [CallFailIf (Some e1); CallFailIf None; CallFailIf (Some e2)] in
  match calls cs (Begin c) with
  | Some o' => failure o' = Some e2
  | None => False
  end.
Proof.
  intros c e1 e2 cs.
  destruct (calls cs (Begin c)) as [o' |] eqn:H;
    [| vm_compute in H; discriminate H].
  exact (proj2 (failIf_keeps_latest_error_of_one_type c cs) o' H).
Defined.

(** X20. What [End] reports. After any calls of [FailIf] and [Cancel] that
    went through on a new op: if [Cancel] was among them, [End] does
    nothing: no reporter is called and the context is not exited.
    Otherwise [End] calls every registered reporter exactly once, in the
    order of registration, each with the last non-nil error passed to
    [FailIf] (nil if there was none) and with one and the same map, and
    then exits the context once. That map is the one of the context except
    possibly at the key "error", which is set whenever there is a
    failure. *)
Theorem end_reports_latest_failure_unless_cancelled (c : Context)
  (cs : list call) (o' : op) (rs : list nat) :
  calls cs (Begin c) = Some o' ->
  (cancels cs = true -> End_ (registered rs) o' = []) /\
  (cancels cs = false ->
   exists m : Map,
     End_ (registered rs) o'
     = map (fun r => Reported r (latest cs None) m) rs ++ [Exited] /\
     (forall k, k <> "error"%string ->
                m !! k = AsMap c (latest cs None) true !! k) /\
     (latest cs None <> None -> is_Some (m !! "error"%string)) /\
     (latest cs None = None -> m = AsMap c None true)).
Proof.
  intros H. apply calls_state in H as (Hc & Hk & Hl). cbn in Hc, Hk, Hl.
  unfold End_, registered. rewrite registered_app, Hk, Hl, Hc. cbn [app].
  split; intros Hcan; rewrite Hcan; [done |].
  set (m0 := AsMap c (latest cs None) true). unfold Map in *.
  destruct (latest cs None) as [f |] eqn:Hlat.
  - destruct (m0 !! "error"%string) as [v |] eqn:Herr.
    + exists m0. split; [by destruct rs |].
      split; [done |]. split; [| done]. intros _. by rewrite Herr.
    + exists (<["error"%string := VString (Error f)]> m0).
      split; [by destruct rs |]. split; [| split; [| done]].
      * intros k Hk'. by rewrite lookup_insert_ne.
      * intros _. rewrite lookup_insert_eq. by eexists.
  - exists m0. split; [by destruct rs |]. by repeat split.
Qed.

Lemma end_reports_latest_failure_unless_cancelled_witness :
  let c := {| AsMap := fun _ _ => ∅ |} in
  let e := {| dynamic_type := 1; Error := "broken pipe" |} in
  let cs := [CallFailIf (Some e); CallFailIf None] in
  match calls cs (Begin c) with
  | Some o' =>
    (cancels cs = true -> End_ (registered [7%nat; 3%nat]) o' = []) /\
    (cancels cs = false ->
     exists m : Map,
       End_ (registered [7%nat; 3%nat]) o'
       = map (fun r => Reported r (latest cs None) m) [7%nat; 3%nat]
         ++ [Exited] /\
       (forall k, k <> "error"%string ->
                  m !! k = AsMap c (latest cs None) true !! k) /\
       (latest cs None <> None -> is_Some (m !! "error"%string)) /\
       (latest cs None = None -> m = AsMap c None true))
  | None => False
  end.
Proof.
  intros c e cs.
  destruct (calls cs (Begin c)) as [o' |] eqn:H;
    [| vm_compute in H; discriminate H].
  exact (end_reports_latest_failure_unless_cancelled c cs o' [7%nat; 3%nat] H).
Defined.
End OpsLaws.
